(** * Aureon landing page: the interactive controllers of [script.js]

    A shallow embedding of the DOM controllers of [src/script.js] and the
    properties the specification states about them.

    Conventions of the embedding.
    - A finite JavaScript [Number] is an exact rational ([Qc]); the IEEE
      rounding of the engine and the sign of zero are not modelled.  The
      evaluations that decide a property use values on which exact and
      double arithmetic agree (integers, halves and quarters).
    - Code that can raise runs in the monad [JS.M]: the state survives a
      raised exception, as the mutations of a JavaScript function that throws
      half-way do.
    - Each controller sees the slice of the document it queries, as a record;
      an element the code looks up and may not find is an [option].
    - [setTimeout] appends a defunctionalised callback to a timer queue that
      the event loop fires later. *)

From Stdlib Require Import Ascii QArith Qcanon Lqa.
From stdpp Require Import numbers base strings gmap list.

Open Scope string_scope.

(** ** Exceptions and mutable state *)

Module JS.

Inductive exn : Type :=
| SecurityError        (* storage access denied *)
| QuotaExceededError   (* storage write refused *)
| TypeError            (* property access on null *)
| InvalidCharacterError   (* a class token that contains white space *)
| SyntaxError.            (* a selector that does not parse *)

Inductive completion (A : Type) : Type :=
| Normal (a : A)
| Throw (e : exn).
Arguments Normal {A} a.
Arguments Throw {A} e.

Definition M (S A : Type) : Type := S → S * completion A.

Definition ret {S A} (a : A) : M S A := λ s, (s, Normal a).

Definition bind {S A B} (m : M S A) (k : A → M S B) : M S B :=
  λ s, match m s with
       | (s', Normal a) => k a s'
       | (s', Throw e) => (s', Throw e)
       end.

Definition throw {S A} (e : exn) : M S A := λ s, (s, Throw e).

Definition modify {S} (f : S → S) : M S unit := λ s, (f s, Normal tt).

Definition gets {S A} (f : S → A) : M S A := λ s, (s, Normal (f s)).

(** State left behind, and how the call completed. *)
Definition exec {S A} (m : M S A) (s : S) : S := fst (m s).
Definition outcome {S A} (m : M S A) (s : S) : completion A := snd (m s).

Definition returns {A} (c : completion A) : Prop :=
  match c with Normal _ => True | Throw _ => False end.

Definition raises {A} (c : completion A) : Prop :=
  match c with Normal _ => False | Throw _ => True end.

#[global] Instance returns_dec {A} (c : completion A) : Decision (returns c).
Proof. destruct c; simpl; apply _. Defined.

#[global] Instance raises_dec {A} (c : completion A) : Decision (raises c).
Proof. destruct c; simpl; apply _. Defined.

End JS.

#[global] Instance JS_ret {S} : MRet (JS.M S) := λ A, JS.ret.
#[global] Instance JS_bind {S} : MBind (JS.M S) := λ A B k m, JS.bind m k.

(** ** DOMTokenList *)

Module ClassList.

(** [element.classList]: an ordered set of tokens. *)
Definition contains (tok : string) (cl : list string) : bool :=
  bool_decide (tok ∈ cl).

Definition add (tok : string) (cl : list string) : list string :=
  if contains tok cl then cl else cl ++ [tok].

Definition remove (tok : string) (cl : list string) : list string :=
  filter (λ t, t ≠ tok) cl.

End ClassList.

(** ** Theme management *)

Module ThemeManager.

(** [window.localStorage].  [failure = Some e]: storage is unavailable and
    every [getItem] and [setItem] raises [e]. *)
Record Storage : Type := {
  failure : option JS.exn;
  items : gmap string string
}.

(** Callbacks handed to [setTimeout]. *)
Inductive callback : Type :=
| ClearBodyTransition.

(** The toggle control: [icon] is the class name of its first [<i>]
    descendant, when it has one. *)
Record Toggle : Type := {
  icon : option string;
  clickListeners : nat
}.

Record World : Type := {
  data_theme : option string;       (* documentElement's data-theme *)
  themeToggle : option Toggle;      (* getElementById('themeToggle') *)
  body_transition : string;         (* document.body.style.transition *)
  localStorage : Storage;
  timers : list (nat * callback)    (* setTimeout(callback, delay) *)
}.

(** The controller object with the page it lives in. *)
Record State : Type := {
  world : World;
  theme : string                    (* this.theme *)
}.

Definition key : string := "aureon-theme".

Definition getItem (k : string) : JS.M World (option string) :=
  λ w, match failure (localStorage w) with
       | Some e => (w, JS.Throw e)
       | None => (w, JS.Normal (items (localStorage w) !! k))
       end.

Definition setItem (k v : string) : JS.M World unit :=
  λ w, match failure (localStorage w) with
       | Some e => (w, JS.Throw e)
       | None =>
           ({| data_theme := data_theme w;
               themeToggle := themeToggle w;
               body_transition := body_transition w;
               localStorage := {| failure := None;
                                  items := <[k := v]> (items (localStorage w)) |};
               timers := timers w |},
            JS.Normal tt)
       end.

(** [v || d] on a value that is a string or null: null and the empty
    string are falsy. *)
Definition or_default (v : option string) (d : string) : string :=
  match v with
  | Some s => if bool_decide (s = "") then d else s
  | None => d
  end.

Definition setAttribute_data_theme (t : string) (w : World) : World :=
  {| data_theme := Some t;
     themeToggle := themeToggle w;
     body_transition := body_transition w;
     localStorage := localStorage w;
     timers := timers w |}.

Definition set_icon (cls : string) (w : World) : World :=
  {| data_theme := data_theme w;
     themeToggle :=
       match themeToggle w with
       | Some tg =>
           Some {| icon := match icon tg with
                           | Some _ => Some cls
                           | None => None
                           end;
                   clickListeners := clickListeners tg |}
       | None => None
       end;
     body_transition := body_transition w;
     localStorage := localStorage w;
     timers := timers w |}.

Definition set_body_transition (v : string) (w : World) : World :=
  {| data_theme := data_theme w;
     themeToggle := themeToggle w;
     body_transition := v;
     localStorage := localStorage w;
     timers := timers w |}.

Definition setTimeout (cb : callback) (delay : nat) (w : World) : World :=
  {| data_theme := data_theme w;
     themeToggle := themeToggle w;
     body_transition := body_transition w;
     localStorage := localStorage w;
     timers := timers w ++ [(delay, cb)] |}.

Definition addClickListener (w : World) : World :=
  {| data_theme := data_theme w;
     themeToggle :=
       match themeToggle w with
       | Some tg => Some {| icon := icon tg;
                            clickListeners := S (clickListeners tg) |}
       | None => None
       end;
     body_transition := body_transition w;
     localStorage := localStorage w;
     timers := timers w |}.

(** Lift an operation on the page to the controller's state. *)
Definition on_world {A} (m : JS.M World A) : JS.M State A :=
  λ s, let (w', c) := m (world s) in
       ({| world := w'; theme := theme s |}, c).

Definition update_world (f : World → World) : JS.M State unit :=
  JS.modify (λ s, {| world := f (world s); theme := theme s |}).

Definition set_theme (t : string) : JS.M State unit :=
  JS.modify (λ s, {| world := world s; theme := t |}).

Definition applyTheme (t : string) : JS.M State unit :=
  update_world (setAttribute_data_theme t);;
  set_theme t;;
  on_world (setItem key t);;
  update_world
    (set_icon (if bool_decide (t = "dark") then "fas fa-sun" else "fas fa-moon")).

Definition toggle : JS.M State unit :=
  current ← JS.gets theme;
  let newTheme := if bool_decide (current = "dark") then "light" else "dark" in
  applyTheme newTheme;;
  update_world (set_body_transition "background-color 0.3s ease, color 0.3s ease");;
  update_world (setTimeout ClearBodyTransition 300).

Definition bindEvents : JS.M State unit :=
  update_world addClickListener.

Definition init : JS.M State unit :=
  t ← JS.gets theme;
  applyTheme t;;
  bindEvents.

(** [new ThemeManager()]: the page afterwards, and the controller or the
    exception that left the constructor. *)
Definition new (w : World) : World * JS.completion State :=
  match getItem key w with
  | (w1, JS.Throw e) => (w1, JS.Throw e)
  | (w1, JS.Normal v) =>
      match init {| world := w1; theme := or_default v "dark" |} with
      | (s, JS.Throw e) => (world s, JS.Throw e)
      | (s, JS.Normal _) => (world s, JS.Normal s)
      end
  end.

(** Run the timer callback. *)
Definition fire (cb : callback) (w : World) : World :=
  match cb with
  | ClearBodyTransition => set_body_transition "" w
  end.

(** [n] clicks on the toggle control, one event each: an exception that
    leaves a listener is reported to the page and the next click still
    runs.  The completions are listed in order. *)
Fixpoint toggles (n : nat) (s : State) : State * list (JS.completion unit) :=
  match n with
  | O => (s, [])
  | S n' =>
      let (s1, c) := toggle s in
      let (s2, cs) := toggles n' s1 in
      (s2, c :: cs)
  end.

Definition other (t : string) : string :=
  if bool_decide (t = "dark") then "light" else "dark".

Definition unavailable (w : World) : Prop :=
  failure (localStorage w) ≠ None.

Definition available (w : World) : Prop :=
  failure (localStorage w) = None.

Definition persisted (w : World) : option string :=
  items (localStorage w) !! key.

(** A page whose storage raises, and a page that stored "light". *)
Definition page_no_storage : World :=
  {| data_theme := None;
     themeToggle := Some {| icon := Some "fas fa-moon"; clickListeners := 0 |};
     body_transition := "";
     localStorage := {| failure := Some JS.SecurityError; items := ∅ |};
     timers := [] |}.

Definition page_light : World :=
  {| data_theme := Some "light";
     themeToggle := Some {| icon := Some "fas fa-moon"; clickListeners := 1 |};
     body_transition := "";
     localStorage := {| failure := None; items := {[ key := "light" ]} |};
     timers := [] |}.

(** The stored preference and the document attribute both equal the
    controller's field. *)
Definition in_sync (s : State) : Prop :=
  persisted (world s) = Some (theme s) ∧ data_theme (world s) = Some (theme s).

End ThemeManager.

(** ** Numbers *)

(** A JavaScript [Number]: a finite value, an infinity or NaN.  Finite
    values are exact rationals. *)
Inductive Number : Type :=
| Finite (q : Qc)
| Infinity (negative : bool)
| NaN.

#[global] Instance Number_eq_dec : EqDecision Number.
Proof. solve_decision. Defined.

Definition is_negative (q : Qc) : bool := bool_decide (q < Qc_of_Z 0)%Qc.

(** [x * y] *)
Definition Number_mul (x y : Number) : Number :=
  match x, y with
  | NaN, _ | _, NaN => NaN
  | Finite a, Finite b => Finite (a * b)
  | Finite a, Infinity n | Infinity n, Finite a =>
      if bool_decide (a = Qc_of_Z 0) then NaN else Infinity (xorb n (is_negative a))
  | Infinity n, Infinity m => Infinity (xorb n m)
  end.

(** [-x] *)
Definition Number_neg (x : Number) : Number :=
  match x with
  | Finite a => Finite (- a)
  | Infinity n => Infinity (negb n)
  | NaN => NaN
  end.

(** ** Values of inline style properties *)

(** An inline style property holds the value the script last assigned to it.
    A template literal that interpolates a number is kept as a constructor
    applied to that number: rendering a [Number] as text is the engine's
    business, as is expanding a shorthand property. *)
Inductive CssValue : Type :=
| Text (s : string)            (* a string literal *)
| Seconds (n : Number)         (* `${n}s` *)
| TranslateY_px (n : Number).  (* `translateY(${n}px)` *)

#[global] Instance CssValue_eq_dec : EqDecision CssValue.
Proof. solve_decision. Defined.

(** ** Navigation management *)

Module NavigationManager.

(** An element of class [nav-link]. *)
Record Link : Type := {
  href : option string;
  classList : list string;
  in_menu : bool;               (* a descendant of #navMenu *)
  animation : CssValue;         (* style.animation *)
  animationDelay : CssValue     (* style.animationDelay *)
}.

(** A [section] element that carries an [id].  The id is interpolated into
    the selector [.nav-link[href="#id"]]; ids are taken to be such that the
    selector is well formed (no quote, backslash or line break). *)
Record Section_ : Type := {
  id : string;
  offsetTop : Z;
  offsetHeight : Z
}.

(** The part of the page the controller reads and writes.  The node lists
    the constructor captured ([this.navLinks]) and the ones looked up later
    hold the same elements: the script never adds or removes a link. *)
Record Page : Type := {
  nav : option (list string);         (* classList of .nav *)
  navToggle : option (list string);   (* classList of #navToggle *)
  navMenu : option (list string);     (* classList of #navMenu *)
  navLinks : list Link;               (* the .nav-link elements, in document order *)
  sections : list Section_;           (* section[id], in document order *)
  scrollY : Qc;                       (* window.scrollY *)
  body_overflow : string              (* document.body.style.overflow *)
}.

Definition set_nav (v : list string) (p : Page) : Page :=
  {| nav := Some v; navToggle := navToggle p; navMenu := navMenu p;
     navLinks := navLinks p; sections := sections p; scrollY := scrollY p;
     body_overflow := body_overflow p |}.

Definition set_navToggle (v : list string) (p : Page) : Page :=
  {| nav := nav p; navToggle := Some v; navMenu := navMenu p;
     navLinks := navLinks p; sections := sections p; scrollY := scrollY p;
     body_overflow := body_overflow p |}.

Definition set_navMenu (v : list string) (p : Page) : Page :=
  {| nav := nav p; navToggle := navToggle p; navMenu := Some v;
     navLinks := navLinks p; sections := sections p; scrollY := scrollY p;
     body_overflow := body_overflow p |}.

Definition set_navLinks (v : list Link) (p : Page) : Page :=
  {| nav := nav p; navToggle := navToggle p; navMenu := navMenu p;
     navLinks := v; sections := sections p; scrollY := scrollY p;
     body_overflow := body_overflow p |}.

Definition set_body_overflow (v : string) (p : Page) : Page :=
  {| nav := nav p; navToggle := navToggle p; navMenu := navMenu p;
     navLinks := navLinks p; sections := sections p; scrollY := scrollY p;
     body_overflow := v |}.

Definition set_classList (cl : list string) (l : Link) : Link :=
  {| href := href l; classList := cl; in_menu := in_menu l;
     animation := animation l; animationDelay := animationDelay l |}.

Definition set_animation (a d : CssValue) (l : Link) : Link :=
  {| href := href l; classList := classList l; in_menu := in_menu l;
     animation := a; animationDelay := d |}.

(** [this.navMenu.classList.<op>(..)]: a TypeError when the element was
    not found. *)
Definition navMenu_classList (op : list string → list string) : JS.M Page unit :=
  λ p, match navMenu p with
       | Some cl => (set_navMenu (op cl) p, JS.Normal tt)
       | None => (p, JS.Throw JS.TypeError)
       end.

Definition navToggle_classList (op : list string → list string) : JS.M Page unit :=
  λ p, match navToggle p with
       | Some cl => (set_navToggle (op cl) p, JS.Normal tt)
       | None => (p, JS.Throw JS.TypeError)
       end.

Definition nav_classList (op : list string → list string) : JS.M Page unit :=
  λ p, match nav p with
       | Some cl => (set_nav (op cl) p, JS.Normal tt)
       | None => (p, JS.Throw JS.TypeError)
       end.

(** [this.navMenu.querySelectorAll('.nav-link').forEach((item, index) => ..)]:
    the links inside the menu, numbered from 0 in document order. *)
Fixpoint forEach_menuItems (f : nat → Link → Link) (index : nat)
    (ls : list Link) : list Link :=
  match ls with
  | [] => []
  | l :: ls' =>
      if in_menu l
      then f index l :: forEach_menuItems f (S index) ls'
      else l :: forEach_menuItems f index ls'
  end.

Definition tenth : Qc := Q2Qc (1 # 10).

Definition openMobileMenu : JS.M Page unit :=
  navMenu_classList (ClassList.add "active");;
  navToggle_classList (ClassList.add "active");;
  JS.modify (set_body_overflow "hidden");;
  JS.modify (λ p,
    set_navLinks
      (forEach_menuItems
         (λ index item,
            set_animation (Text "fadeInUp 0.3s ease forwards")
              (Seconds (Finite (Qc_of_Z (Z.of_nat index) * tenth))) item)
         0 (navLinks p)) p).

Definition closeMobileMenu : JS.M Page unit :=
  navMenu_classList (ClassList.remove "active");;
  navToggle_classList (ClassList.remove "active");;
  JS.modify (set_body_overflow "");;
  JS.modify (λ p,
    set_navLinks
      (forEach_menuItems (λ _ item, set_animation (Text "") (Text "") item)
         0 (navLinks p)) p).

Definition toggleMobileMenu : JS.M Page unit :=
  λ p, match navMenu p with
       | None => (p, JS.Throw JS.TypeError)
       | Some cl =>
           if ClassList.contains "active" cl
           then closeMobileMenu p
           else openMobileMenu p
       end.

(** [scrollPos >= sectionTop && scrollPos < sectionTop + sectionHeight] *)
Definition in_bounds (scrollPos : Qc) (sec : Section_) : bool :=
  bool_decide (Qc_of_Z (offsetTop sec) ≤ scrollPos)%Qc
  && bool_decide (scrollPos < Qc_of_Z (offsetTop sec + offsetHeight sec))%Qc.

Definition deactivate (l : Link) : Link :=
  set_classList (ClassList.remove "active" (classList l)) l.

Definition activate (l : Link) : Link :=
  set_classList (ClassList.add "active" (classList l)) l.

(** [document.querySelector('.nav-link[href="..."]')] followed by
    [classList.add('active')] on the element found: the first link in
    document order whose href attribute is the given string. *)
Fixpoint activate_first (target : string) (ls : list Link) : list Link :=
  match ls with
  | [] => []
  | l :: ls' =>
      if bool_decide (href l = Some target)
      then activate l :: ls'
      else l :: activate_first target ls'
  end.

(** The body of the [sections.forEach] callback. *)
Definition visit_section (scrollPos : Qc) (ls : list Link) (sec : Section_)
    : list Link :=
  if in_bounds scrollPos sec
  then activate_first ("#" ++ id sec) (map deactivate ls)
  else ls.

Definition updateActiveNavLink (p : Page) : Page :=
  let scrollPos := (scrollY p + Qc_of_Z 100)%Qc in
  set_navLinks (foldl (visit_section scrollPos) (navLinks p) (sections p)) p.

Definition handleScroll : JS.M Page unit :=
  y ← JS.gets scrollY;
  (if bool_decide (Qc_of_Z 100 < y)%Qc
   then nav_classList (ClassList.add "scrolled")
   else nav_classList (ClassList.remove "scrolled"));;
  JS.modify updateActiveNavLink.

Definition is_active (l : Link) : bool :=
  ClassList.contains "active" (classList l).

(** Number of links that carry the active marker. *)
Definition active_count (ls : list Link) : nat :=
  length (filter (λ l, is_active l = true) ls).

(** The hrefs of the links that carry the active marker. *)
Definition active_hrefs (ls : list Link) : list (option string) :=
  map href (filter (λ l, is_active l = true) ls).

Definition set_scrollY (y : Qc) (p : Page) : Page :=
  {| nav := nav p; navToggle := navToggle p; navMenu := navMenu p;
     navLinks := navLinks p; sections := sections p; scrollY := y;
     body_overflow := body_overflow p |}.

(** The page of the specification's example: sections A and B stacked,
    one link to each. *)
Definition link_to (target : string) (cl : list string) : Link :=
  {| href := Some target; classList := cl; in_menu := true;
     animation := Text ""; animationDelay := Text "" |}.

Definition page_AB (clA clB : list string) (y : Qc) : Page :=
  {| nav := Some ["nav"];
     navToggle := Some ["nav-toggle"];
     navMenu := Some ["nav-menu"];
     navLinks := [link_to "#A" clA; link_to "#B" clB];
     sections := [ {| id := "A"; offsetTop := 0; offsetHeight := 500 |};
                   {| id := "B"; offsetTop := 500; offsetHeight := 500 |} ];
     scrollY := y;
     body_overflow := "" |}.

End NavigationManager.

(** ** Scroll animations *)

Module ScrollAnimations.

Record Element : Type := {
  data_aos : option string;         (* getAttribute('data-aos') *)
  data_aos_delay : option string;   (* getAttribute('data-aos-delay') *)
  data_speed : option string;       (* getAttribute('data-speed') *)
  classList : list string;
  opacity : string;                 (* style.opacity *)
  transform : CssValue              (* style.transform *)
}.

(** What the engine measures for a target in one rendering update. *)
Record Observation : Type := {
  isIntersecting : bool;
  thresholdIndex : nat
}.

#[global] Instance Observation_eq_dec : EqDecision Observation.
Proof. solve_decision. Defined.

(** An IntersectionObserverEntry, as far as the callback reads it. *)
Record Entry : Type := {
  target : nat;
  entry_isIntersecting : bool
}.

(** Callbacks handed to [setTimeout]; [Animate] carries what its closure
    captured. *)
Inductive callback : Type :=
| Animate (element : nat) (animationType : option string)
| ReleaseThrottle.

(** Elements are named by their position in document order.  [targets] is
    the observer's list of observation targets, each with the observation
    the engine last recorded for it ([None] before the first one).
    [triggered] logs, in order, the elements whose animation callback
    ran. *)
Record World : Type := {
  elements : list Element;
  targets : list (nat * option Observation);
  timers : list (Number * callback);
  triggered : list nat;
  scrollY : Qc;
  inThrottle : bool
}.

Definition set_elements (v : list Element) (w : World) : World :=
  {| elements := v; targets := targets w; timers := timers w;
     triggered := triggered w; scrollY := scrollY w; inThrottle := inThrottle w |}.

Definition set_targets (v : list (nat * option Observation)) (w : World) : World :=
  {| elements := elements w; targets := v; timers := timers w;
     triggered := triggered w; scrollY := scrollY w; inThrottle := inThrottle w |}.

Definition set_timers (v : list (Number * callback)) (w : World) : World :=
  {| elements := elements w; targets := targets w; timers := v;
     triggered := triggered w; scrollY := scrollY w; inThrottle := inThrottle w |}.

Definition set_triggered (v : list nat) (w : World) : World :=
  {| elements := elements w; targets := targets w; timers := timers w;
     triggered := v; scrollY := scrollY w; inThrottle := inThrottle w |}.

Definition set_scrollY (v : Qc) (w : World) : World :=
  {| elements := elements w; targets := targets w; timers := timers w;
     triggered := triggered w; scrollY := v; inThrottle := inThrottle w |}.

Definition set_inThrottle (v : bool) (w : World) : World :=
  {| elements := elements w; targets := targets w; timers := timers w;
     triggered := triggered w; scrollY := scrollY w; inThrottle := v |}.

Definition setTimeout (cb : callback) (delay : Number) (w : World) : World :=
  set_timers (timers w ++ [(delay, cb)]) w.

(** [observer.observe(el)]: no effect on a target already observed. *)
Definition observe (el : nat) (w : World) : World :=
  if bool_decide (el ∈ (targets w).*1)
  then w
  else set_targets (targets w ++ [(el, None)]) w.

(** [observer.unobserve(el)] *)
Definition unobserve (el : nat) (w : World) : World :=
  set_targets (filter (λ t, t.1 ≠ el) (targets w)) w.

(** ASCII white space, which a class token may not contain. *)
Definition is_ascii_whitespace (c : Ascii.ascii) : bool :=
  let n := Ascii.nat_of_ascii c in
  bool_decide (n = 9 ∨ n = 10 ∨ n = 12 ∨ n = 13 ∨ n = 32)%nat.

Fixpoint has_whitespace (s : string) : bool :=
  match s with
  | EmptyString => false
  | String c s' => is_ascii_whitespace c || has_whitespace s'
  end.

Definition update_element (el : nat) (f : Element → Element) (w : World) : World :=
  set_elements (alter f el (elements w)) w.

Section WithToNumber.

(** The engine's conversion of a string to a [Number]. *)
Variable ToNumber : string → Number.

(** [attribute || d], then used as a number: null and the empty string
    give [d]. *)
Definition number_or (attribute : option string) (d : Number) : Number :=
  match attribute with
  | Some s => if bool_decide (s = "") then d else ToNumber s
  | None => d
  end.

Definition animateElement (el : nat) (w : World) : World :=
  match elements w !! el with
  | Some e =>
      let animationType := data_aos e in
      let delay := number_or (data_aos_delay e) (Finite (Qc_of_Z 0)) in
      setTimeout (Animate el animationType) delay w
  | None => w
  end.

(** The observer's callback: [entries.forEach(entry => ..)]. *)
Definition observer_callback (entries : list Entry) (w : World) : World :=
  foldl (λ w entry,
           if entry_isIntersecting entry
           then unobserve (target entry) (animateElement (target entry) w)
           else w)
        w entries.

(** One rendering update: for every observation target the engine
    compares the new observation with the recorded one, queues an entry
    when they differ, and then hands the queued entries to the
    callback. *)
Fixpoint queued_entries (obs : nat → Observation)
    (ts : list (nat * option Observation)) : list Entry :=
  match ts with
  | [] => []
  | (el, previous) :: ts' =>
      if bool_decide (previous = Some (obs el))
      then queued_entries obs ts'
      else {| target := el;
              entry_isIntersecting := isIntersecting (obs el) |}
           :: queued_entries obs ts'
  end.

Definition record_observations (obs : nat → Observation)
    (ts : list (nat * option Observation)) : list (nat * option Observation) :=
  map (λ t, (t.1, Some (obs t.1))) ts.

Definition update_intersection_observations (obs : nat → Observation)
    (w : World) : World :=
  let entries := queued_entries obs (targets w) in
  observer_callback entries
    (set_targets (record_observations obs (targets w)) w).

(** [document.querySelectorAll('[data-aos]').forEach(el => observe(el))] *)
Definition has_data_aos (w : World) (el : nat) : bool :=
  match elements w !! el with
  | Some e => bool_decide (data_aos e ≠ None)
  | None => false
  end.

Definition setupIntersectionObserver (w : World) : World :=
  foldl (λ w el, observe el w) w
    (filter (λ el, has_data_aos w el = true) (seq 0 (length (elements w)))).

Definition is_parallax (e : Element) : bool :=
  ClassList.contains "parallax" (classList e).

Definition set_transform (v : CssValue) (e : Element) : Element :=
  {| data_aos := data_aos e; data_aos_delay := data_aos_delay e;
     data_speed := data_speed e; classList := classList e;
     opacity := opacity e; transform := v |}.

Definition half : Qc := Q2Qc (1 # 2).

(** The offset [handleParallax] writes for an element. *)
Definition yPos (scrollY : Qc) (e : Element) : Number :=
  let speed := number_or (data_speed e) (Finite half) in
  Number_neg (Number_mul (Finite scrollY) speed).

Definition handleParallax (w : World) : World :=
  let scrollY := scrollY w in
  set_elements
    (map (λ element,
            if is_parallax element
            then set_transform (TranslateY_px (yPos scrollY element)) element
            else element)
         (elements w)) w.

(** The scroll listener: [throttle(() => this.handleParallax(), 16)]. *)
Definition throttled_handleParallax (w : World) : World :=
  if inThrottle w
  then w
  else setTimeout ReleaseThrottle (Finite (Qc_of_Z 16))
         (set_inThrottle true (handleParallax w)).

Definition init (w : World) : World := setupIntersectionObserver w.

Definition animate_now (animationType : option string) (e : Element) : Element :=
  {| data_aos := data_aos e; data_aos_delay := data_aos_delay e;
     data_speed := data_speed e;
     classList :=
       ClassList.add ("aos-animate-" ++ default "null" animationType) (classList e);
     opacity := "1";
     transform := Text "translateY(0) translateX(0) scale(1)" |}.

(** Run a timer callback. *)
Definition fire (cb : callback) : JS.M World unit :=
  match cb with
  | Animate el animationType =>
      JS.modify (λ w, set_triggered (triggered w ++ [el]) w);;
      (if has_whitespace (default "null" animationType)
       then JS.throw JS.InvalidCharacterError
       else JS.modify (update_element el (animate_now animationType)))
  | ReleaseThrottle => JS.modify (set_inThrottle false)
  end.

(** What the browser delivers to the page. *)
Inductive Event : Type :=
| Frame (obs : nat → Observation)   (* a rendering update *)
| Timeout (i : nat)                 (* the pending timer at position i is due *)
| Scroll (y : Qc).                  (* the page was scrolled to y *)

Definition step (w : World) (ev : Event) : World :=
  match ev with
  | Frame obs => update_intersection_observations obs w
  | Timeout i =>
      match timers w !! i with
      | Some (_, cb) => JS.exec (fire cb) (set_timers (delete i (timers w)) w)
      | None => w
      end
  | Scroll y => throttled_handleParallax (set_scrollY y w)
  end.

Definition run (events : list Event) (w : World) : World :=
  foldl step w events.

(** The page as the script finds it, with the controller constructed. *)
Definition load (els : list Element) (y : Qc) : World :=
  init {| elements := els; targets := []; timers := []; triggered := [];
          scrollY := y; inThrottle := false |}.

(** How often the animation callback of [el] has run or is still due. *)
Definition animates (el : nat) (cb : callback) : bool :=
  match cb with
  | Animate el' _ => bool_decide (el' = el)
  | ReleaseThrottle => false
  end.

Definition pending (el : nat) (w : World) : nat :=
  length (filter (λ t, animates el t.2 = true) (timers w)).

Definition fired (el : nat) (w : World) : nat :=
  length (filter (λ x, x = el) (triggered w)).

End WithToNumber.

(** A conversion to run examples with: it reads the plain decimal
    literals, [(+|-)digits(.digits)], on which the engine's conversion
    gives the same number, and answers NaN to every other string. *)
Definition digit (c : Ascii.ascii) : option Z :=
  let n := Z.of_nat (Ascii.nat_of_ascii c) in
  if bool_decide (48 ≤ n ≤ 57)%Z then Some (n - 48)%Z else None.

Fixpoint read_digits (s : string) (acc : Z) (count : nat) : Z * nat * string :=
  match s with
  | String c s' =>
      match digit c with
      | Some d => read_digits s' (10 * acc + d)%Z (S count)
      | None => (acc, count, s)
      end
  | EmptyString => (acc, count, s)
  end.

Definition ToNumber_decimal (s : string) : Number :=
  let '(negative, body) :=
    match s with
    | String "-"%char s' => (true, s')
    | String "+"%char s' => (false, s')
    | _ => (false, s)
    end in
  let '(int, n, rest) := read_digits body 0 0 in
  let '(num, m, rest') :=
    match rest with
    | String "."%char r => read_digits r int 0
    | _ => (int, 0%nat, rest)
    end in
  if bool_decide (rest' = "") && bool_decide (0 < n + m)%nat
  then Finite (Qc_of_Z (if negative then - num else num)
               / Qc_of_Z (10 ^ Z.of_nat m))%Qc
  else NaN.

(** A page with a hero image that moves at the default speed, a card that
    is revealed and moves at a quarter of the scroll, and a plain
    paragraph. *)
Definition hero : Element :=
  {| data_aos := None; data_aos_delay := None; data_speed := None;
     classList := ["hero-image"; "parallax"]; opacity := "";
     transform := Text "" |}.

Definition card : Element :=
  {| data_aos := Some "fade-up"; data_aos_delay := Some "200";
     data_speed := Some "0.25";
     classList := ["feature-card"; "parallax"]; opacity := "";
     transform := Text "" |}.

Definition paragraph : Element :=
  {| data_aos := None; data_aos_delay := None; data_speed := None;
     classList := ["lead"]; opacity := ""; transform := Text "" |}.

Definition visible : Observation :=
  {| isIntersecting := true; thresholdIndex := 1 |}.

Definition hidden : Observation :=
  {| isIntersecting := false; thresholdIndex := 0 |}.

(** The card scrolls into view, out, and in again, its timer fires, and
    it leaves and enters once more. *)
Definition card_crossings : list Event :=
  [Frame (λ _, hidden); Frame (λ _, visible); Frame (λ _, hidden);
   Frame (λ _, visible); Timeout 0; Frame (λ _, hidden); Frame (λ _, visible)].

(** Triggers of [el] so far: callbacks that ran plus callbacks still due. *)
Definition shots (el : nat) (w : World) : nat := (pending el w + fired el w)%nat.

(** The reveal invariant: targets are listed once, no element has more
    than one trigger, and an element still observed has none. *)
Definition reveal_inv (w : World) : Prop :=
  NoDup (targets w).*1 ∧
  ∀ el, (shots el w ≤ 1)%nat ∧ (el ∈ (targets w).*1 → shots el w = 0%nat).

End ScrollAnimations.

(** ** Interactive components *)

Module InteractiveComponents.

(** Markup, as [innerHTML] reads and writes it.  The ripple span keeps the
    numbers its style text interpolates. *)
#[local] Unset Elimination Schemes.
Inductive Node : Type :=
| TextNode (data : string)
| ElementNode (tag : string) (attributes : list (string * string))
              (children : list Node)
| RippleSpan (size x y : Qc).
#[local] Set Elimination Schemes.

Fixpoint textContent (n : Node) : string :=
  match n with
  | TextNode data => data
  | ElementNode _ _ children =>
      (fix concat (ns : list Node) : string :=
         match ns with
         | [] => ""
         | n' :: ns' => textContent n' ++ concat ns'
         end) children
  | RippleSpan _ _ _ => ""
  end.

Fixpoint starts_with (p s : string) : bool :=
  match p, s with
  | EmptyString, _ => true
  | String a p', String b s' => bool_decide (a = b) && starts_with p' s'
  | String _ _, EmptyString => false
  end.

(** [s.includes(needle)] *)
Fixpoint includes (needle s : string) : bool :=
  starts_with needle s
  || match s with
     | EmptyString => false
     | String _ s' => includes needle s'
     end.

(** An element of class [btn].  Each child node goes with its identity, so
    that a reference to a node survives or dies with the node. *)
Record Button : Type := {
  classList : list string;
  childNodes : list (nat * Node);
  disabled : bool;
  background : string;            (* style.background *)
  position : string;              (* style.position *)
  overflow : string;              (* style.overflow *)
  rect_left : Qc;                 (* getBoundingClientRect() *)
  rect_top : Qc;
  rect_width : Qc;
  rect_height : Qc;
  ripple_listener : bool;
  loading_listener : bool
}.

(** Callbacks handed to [setTimeout], with what their closures captured. *)
Inductive callback : Type :=
| RemoveRipple (ripple : nat)
| ShowSuccess (button : nat) (originalText : list Node)
| RestoreLabel (button : nat) (originalText : list Node).

(** [timers] holds the due time of each pending callback; [next_node] is
    the identity the next created node gets. *)
Record World : Type := {
  buttons : list Button;
  timers : list (nat * callback);
  now : nat;
  next_node : nat
}.

Definition set_buttons (v : list Button) (w : World) : World :=
  {| buttons := v; timers := timers w; now := now w; next_node := next_node w |}.

Definition set_timers (v : list (nat * callback)) (w : World) : World :=
  {| buttons := buttons w; timers := v; now := now w; next_node := next_node w |}.

Definition set_now (v : nat) (w : World) : World :=
  {| buttons := buttons w; timers := timers w; now := v; next_node := next_node w |}.

Definition set_next_node (v : nat) (w : World) : World :=
  {| buttons := buttons w; timers := timers w; now := now w; next_node := v |}.

Definition setTimeout (cb : callback) (delay : nat) (w : World) : World :=
  set_timers (timers w ++ [(now w + delay, cb)]) w.

Definition update_button (i : nat) (f : Button → Button) (w : World) : World :=
  set_buttons (alter f i (buttons w)) w.

Definition set_childNodes (v : list (nat * Node)) (b : Button) : Button :=
  {| classList := classList b; childNodes := v; disabled := disabled b;
     background := background b; position := position b; overflow := overflow b;
     rect_left := rect_left b; rect_top := rect_top b;
     rect_width := rect_width b; rect_height := rect_height b;
     ripple_listener := ripple_listener b; loading_listener := loading_listener b |}.

Definition set_disabled (v : bool) (b : Button) : Button :=
  {| classList := classList b; childNodes := childNodes b; disabled := v;
     background := background b; position := position b; overflow := overflow b;
     rect_left := rect_left b; rect_top := rect_top b;
     rect_width := rect_width b; rect_height := rect_height b;
     ripple_listener := ripple_listener b; loading_listener := loading_listener b |}.

Definition set_background (v : string) (b : Button) : Button :=
  {| classList := classList b; childNodes := childNodes b; disabled := disabled b;
     background := v; position := position b; overflow := overflow b;
     rect_left := rect_left b; rect_top := rect_top b;
     rect_width := rect_width b; rect_height := rect_height b;
     ripple_listener := ripple_listener b; loading_listener := loading_listener b |}.

Definition set_position_overflow (p o : string) (b : Button) : Button :=
  {| classList := classList b; childNodes := childNodes b; disabled := disabled b;
     background := background b; position := p; overflow := o;
     rect_left := rect_left b; rect_top := rect_top b;
     rect_width := rect_width b; rect_height := rect_height b;
     ripple_listener := ripple_listener b; loading_listener := loading_listener b |}.

Definition set_listeners (r l : bool) (b : Button) : Button :=
  {| classList := classList b; childNodes := childNodes b; disabled := disabled b;
     background := background b; position := position b; overflow := overflow b;
     rect_left := rect_left b; rect_top := rect_top b;
     rect_width := rect_width b; rect_height := rect_height b;
     ripple_listener := r; loading_listener := l |}.

(** [button.innerHTML] read: the markup of the children. *)
Definition innerHTML (b : Button) : list Node := (childNodes b).*2.

(** [button.innerHTML = markup]: the old children go, the parsed nodes
    are new. *)
Definition set_innerHTML (i : nat) (markup : list Node) (w : World) : World :=
  set_next_node (next_node w + length markup)
    (update_button i
       (set_childNodes (zip (seq (next_node w) (length markup)) markup)) w).

Definition button_textContent (b : Button) : string :=
  foldr (λ n acc, textContent n ++ acc) "" (innerHTML b).

Definition setupButtonInteractions (w : World) : World :=
  set_buttons
    (map (λ button,
            set_listeners true
              (ClassList.contains "pricing-btn" (classList button)
               || includes "Demo" (button_textContent button))
              button)
         (buttons w)) w.

Definition two : Qc := Qc_of_Z 2.

Definition Qc_max (a b : Qc) : Qc := if bool_decide (a < b)%Qc then b else a.

Definition createRippleEffect (clientX clientY : Qc) (i : nat) (w : World) : World :=
  match buttons w !! i with
  | Some button =>
      let ripple := next_node w in
      let size := Qc_max (rect_width button) (rect_height button) in
      let x := (clientX - rect_left button - size / two)%Qc in
      let y := (clientY - rect_top button - size / two)%Qc in
      setTimeout (RemoveRipple ripple) 600
        (update_button i
           (λ b, set_childNodes (childNodes b ++ [(ripple, RippleSpan size x y)])
                   (set_position_overflow "relative" "hidden" b))
           (set_next_node (S ripple) w))
  | None => w
  end.

Definition processing : list Node :=
  [ElementNode "i" [("class", "fas fa-spinner fa-spin")] [];
   TextNode " Processing..."].

Definition success : list Node :=
  [ElementNode "i" [("class", "fas fa-check")] []; TextNode " Success!"].

Definition showLoadingState (i : nat) (w : World) : World :=
  match buttons w !! i with
  | Some button =>
      let originalText := innerHTML button in
      setTimeout (ShowSuccess i originalText) 2000
        (update_button i (set_disabled true) (set_innerHTML i processing w))
  | None => w
  end.

(** [ripple.remove()]: the node leaves its parent, if it still has one. *)
Definition remove_node (node : nat) (w : World) : World :=
  set_buttons
    (map (λ b, set_childNodes (filter (λ c, c.1 ≠ node) (childNodes b)) b)
         (buttons w)) w.

(** Run a timer callback. *)
Definition fire (cb : callback) (w : World) : World :=
  match cb with
  | RemoveRipple ripple => remove_node ripple w
  | ShowSuccess i originalText =>
      setTimeout (RestoreLabel i originalText) 2000
        (update_button i (set_background "var(--color-accent)")
           (set_innerHTML i success w))
  | RestoreLabel i originalText =>
      update_button i (set_background "")
        (update_button i (set_disabled false)
           (set_innerHTML i originalText w))
  end.

(** A click delivered to button [i]: its listeners run in the order they
    were attached.  (A disabled form control is delivered no click.) *)
Definition click (i : nat) (clientX clientY : Qc) (w : World) : World :=
  match buttons w !! i with
  | Some button =>
      let w1 := if ripple_listener button
                then createRippleEffect clientX clientY i w else w in
      if loading_listener button then showLoadingState i w1 else w1
  | None => w
  end.

(** The pending timer that is due first; among equals, the one set
    first. *)
Fixpoint earliest (ts : list (nat * callback)) : option (nat * (nat * callback)) :=
  match ts with
  | [] => None
  | t :: ts' =>
      match earliest ts' with
      | Some (j, t') => if (t'.1 <? t.1)%nat then Some (S j, t') else Some (0%nat, t)
      | None => Some (0%nat, t)
      end
  end.

(** The event loop up to time [t]: due callbacks run in order, each at
    its due time. *)
Fixpoint run_timers (fuel t : nat) (w : World) : World :=
  match fuel with
  | O => w
  | S fuel' =>
      match earliest (timers w) with
      | Some (j, (due, cb)) =>
          if (due <=? t)%nat
          then run_timers fuel' t
                 (fire cb (set_timers (delete j (timers w)) (set_now (now w `max` due) w)))
          else set_now t w
      | None => set_now t w
      end
  end.

(** A callback sets at most one further timer, and that one sets none. *)
Definition weight (cb : callback) : nat :=
  match cb with
  | ShowSuccess _ _ => 2
  | RemoveRipple _ | RestoreLabel _ _ => 1
  end.

Definition total_weight (ts : list (nat * callback)) : nat :=
  foldr (λ t acc, weight t.2 + acc)%nat 0%nat ts.

(** Let [ms] milliseconds pass. *)
Definition elapse (ms : nat) (w : World) : World :=
  run_timers (S (total_weight (timers w))) (now w + ms) w.

(** The markup of button [i]. *)
Definition button_markup (w : World) (i : nat) : option (list Node) :=
  innerHTML <$> buttons w !! i.

(** A call-to-action button before the script runs. *)
Definition demo_button : Button :=
  {| classList := ["btn"; "btn-primary"; "pricing-btn"];
     childNodes := [(0, TextNode "Get Started")]%nat;
     disabled := false;
     background := ""; position := ""; overflow := "";
     rect_left := Qc_of_Z 100; rect_top := Qc_of_Z 200;
     rect_width := Qc_of_Z 160; rect_height := Qc_of_Z 48;
     ripple_listener := false; loading_listener := false |}.

Definition demo_page : World :=
  setupButtonInteractions
    {| buttons := [demo_button]; timers := []; now := 0; next_node := 1 |}.

End InteractiveComponents.

(** ** Smooth scroll *)

Module SmoothScroll.

Definition one : Qc := Qc_of_Z 1.
Definition two : Qc := Qc_of_Z 2.

Definition easeInOutCubic (t b c d : Qc) : Qc :=
  let t := (t / (d / two))%Qc in
  if bool_decide (t < one)%Qc
  then (c / two * t * t * t + b)%Qc
  else
    let t := (t - two)%Qc in
    (c / two * (t * t * t + two) + b)%Qc.

(** The closure [animation] with the variables it captured. *)
Record Animation : Type := {
  startPosition : Qc;
  distance : Qc;
  start : option Qc       (* null until the first frame *)
}.

(** [querySelector] answers a selector with the [offsetTop] of the first
    match, with null, or with a SyntaxError.  [frames] are the callbacks
    waiting for the next animation frame; [scrolled] logs the positions
    handed to [window.scrollTo], in order. *)
Record Window : Type := {
  querySelector : string → JS.completion (option Z);
  pageYOffset : Qc;
  scrollMax : Qc;
  frames : list Animation;
  scrolled : list Qc
}.

Definition duration : Qc := Qc_of_Z 1000.
Definition five_hundred : Qc := Qc_of_Z 500.

Definition requestAnimationFrame (a : Animation) (w : Window) : Window :=
  {| querySelector := querySelector w; pageYOffset := pageYOffset w;
     scrollMax := scrollMax w; frames := frames w ++ [a];
     scrolled := scrolled w |}.

Definition clamp (lo hi x : Qc) : Qc :=
  if bool_decide (x < lo)%Qc then lo
  else if bool_decide (hi < x)%Qc then hi else x.

(** [window.scrollTo(0, y)]: the engine keeps the position in range. *)
Definition scrollTo (y : Qc) (w : Window) : Window :=
  {| querySelector := querySelector w;
     pageYOffset := clamp (Qc_of_Z 0) (scrollMax w) y;
     scrollMax := scrollMax w; frames := frames w;
     scrolled := scrolled w ++ [y] |}.

Definition animation (a : Animation) (currentTime : Qc) (w : Window) : Window :=
  let start' := match start a with None => currentTime | Some s => s end in
  let timeElapsed := (currentTime - start')%Qc in
  let run := easeInOutCubic timeElapsed (startPosition a) (distance a) duration in
  let w' := scrollTo run w in
  if bool_decide (timeElapsed < duration)%Qc
  then requestAnimationFrame
         {| startPosition := startPosition a; distance := distance a;
            start := Some start' |} w'
  else w'.

Definition smoothScrollTo (targetId : string) (offset : Qc) : JS.M Window unit :=
  λ w, match querySelector w targetId with
       | JS.Throw e => (w, JS.Throw e)
       | JS.Normal None => (w, JS.Normal tt)
       | JS.Normal (Some offsetTop) =>
           let targetPosition := (Qc_of_Z offsetTop - offset)%Qc in
           let startPosition := pageYOffset w in
           let distance := (targetPosition - startPosition)%Qc in
           (requestAnimationFrame
              {| startPosition := startPosition; distance := distance;
                 start := None |} w,
            JS.Normal tt)
       end.

(** One animation frame at time [currentTime]: the callbacks that were
    waiting run in order; what they request waits for the next frame. *)
Definition animation_frame (currentTime : Qc) (w : Window) : Window :=
  foldl (λ w a, animation a currentTime w)
        {| querySelector := querySelector w; pageYOffset := pageYOffset w;
           scrollMax := scrollMax w; frames := []; scrolled := scrolled w |}
        (frames w).

Definition run_frames (times : list Qc) (w : Window) : Window :=
  foldl (λ w t, animation_frame t w) w times.

(** A page with one section, [#features], 1080px down. *)
Definition features_page : Window :=
  {| querySelector := λ sel,
       if bool_decide (sel = "#features") then JS.Normal (Some 1080%Z)
       else if bool_decide (sel = "#") then JS.Throw JS.SyntaxError
       else JS.Normal None;
     pageYOffset := Qc_of_Z 0;
     scrollMax := Qc_of_Z 5000;
     frames := [];
     scrolled := [] |}.

End SmoothScroll.

(** ** Accessibility: the announced theme toggle *)

Module AccessibilityManager.

(** The theme controller next to the live region that
    [setupScreenReaderSupport] appends to the body: [liveRegion] is the text
    content of the element with id [live-region], when there is one. *)
Record State : Type := {
  themeManager : ThemeManager.State;
  liveRegion : option string
}.

(** [originalThemeToggle.call(this)] *)
Definition originalThemeToggle : JS.M State unit :=
  λ s, let (t, c) := ThemeManager.toggle (themeManager s) in
       ({| themeManager := t; liveRegion := liveRegion s |}, c).

Definition announce : JS.M State unit :=
  JS.modify (λ s,
    {| themeManager := themeManager s;
       liveRegion :=
         match liveRegion s with
         | Some _ =>
             Some ("Theme changed to " ++ ThemeManager.theme (themeManager s) ++ " mode")
         | None => None
         end |}).

(** The function [setupScreenReaderSupport] installs as the controller's
    [toggle]. *)
Definition toggle : JS.M State unit :=
  originalThemeToggle;;
  announce.

End AccessibilityManager.

(** ** Scroll animations: what is pending *)

Module ScrollAnimationsState.
Import ScrollAnimations.

Definition is_release (cb : callback) : bool :=
  match cb with
  | ReleaseThrottle => true
  | Animate _ _ => false
  end.

(** The number of pending timers that reopen the throttle. *)
Definition releases (w : World) : nat :=
  length (filter (λ t, is_release t.2 = true) (timers w)).

(** An element's attributes and classes that [handleParallax] has no
    business with. *)
Definition same_but_transform (e e' : Element) : Prop :=
  data_aos e' = data_aos e ∧ data_aos_delay e' = data_aos_delay e ∧
  data_speed e' = data_speed e ∧ classList e' = classList e ∧
  opacity e' = opacity e.

(** What no event takes from an element: its data attributes, its classes,
    and an opacity of 1. *)
Definition persists (e e' : Element) : Prop :=
  data_aos e' = data_aos e ∧ data_aos_delay e' = data_aos_delay e ∧
  data_speed e' = data_speed e ∧
  (∀ tok, tok ∈ classList e → tok ∈ classList e') ∧
  (opacity e = "1" → opacity e' = "1").

(** The throttle is shut exactly when one release timer is pending. *)
Definition throttle_inv (w : World) : Prop :=
  releases w = (if inThrottle w then 1 else 0)%nat.

End ScrollAnimationsState.

(** ** Interactive components: node identities and card hover *)

Module InteractiveState.
Import InteractiveComponents.

(** Every node on the page was created before the next identity. *)
Definition fresh_ids (w : World) : Prop :=
  ∀ b c, b ∈ buttons w → c ∈ childNodes b → (c.1 < next_node w)%nat.

(** A button that only ripples, with a label and an icon. *)
Definition plain_button : Button :=
  {| classList := ["btn"; "btn-secondary"];
     childNodes := [(0, ElementNode "i" [("class", "fas fa-play")] []);
                    (1, TextNode " Learn more")]%nat;
     disabled := false;
     background := ""; position := ""; overflow := "";
     rect_left := Qc_of_Z 40; rect_top := Qc_of_Z 300;
     rect_width := Qc_of_Z 120; rect_height := Qc_of_Z 44;
     ripple_listener := false; loading_listener := false |}.

Definition plain_page : World :=
  setupButtonInteractions
    {| buttons := [plain_button; demo_button]; timers := []; now := 0;
       next_node := 2 |}.

End InteractiveState.

Module CardHover.

(** [setupCardHoverEffects]: the cards are the elements of class
    [feature-card], [testimonial-card] or [pricing-card], each with its
    [style.transform]. *)
Inductive Event : Type :=
| MouseEnter (card : nat)
| MouseLeave (card : nat).

Definition card_of (ev : Event) : nat :=
  match ev with MouseEnter i | MouseLeave i => i end.

Definition lifted : CssValue := Text "translateY(-8px) scale(1.02)".
Definition neutral : CssValue := Text "translateY(0) scale(1)".

Definition written (ev : Event) : CssValue :=
  match ev with MouseEnter _ => lifted | MouseLeave _ => neutral end.

(** The listener of the card the event is delivered to. *)
Definition handle (cards : list CssValue) (ev : Event) : list CssValue :=
  match ev with
  | MouseEnter i => <[i := Text "translateY(-8px) scale(1.02)"]> cards
  | MouseLeave i => <[i := Text "translateY(0) scale(1)"]> cards
  end.

Definition run (events : list Event) (cards : list CssValue) : list CssValue :=
  foldl handle cards events.

End CardHover.

(** ** Utility functions *)

Module Utilities.

Section Wrappers.

(** The arguments of the wrapped function. *)
Variable A : Type.

(** *** [debounce(func, wait, immediate)] *)

(** The closure's variable [timeout]: the pending timer, with its due time
    and the arguments its callback [later] captured.  [invoked] logs the
    calls of [func], with their time. *)
Record Debounced : Type := {
  timeout : option (nat * A);
  invoked : list (nat * A)
}.

(** The timer callback [later]. *)
Definition later (immediate : bool) (due : nat) (args : A) (d : Debounced) : Debounced :=
  {| timeout := None;
     invoked := if immediate then invoked d else invoked d ++ [(due, args)] |}.

(** Time passes up to [t]: a timer due by then fires. *)
Definition debounce_advance (immediate : bool) (t : nat) (d : Debounced) : Debounced :=
  match timeout d with
  | Some (due, args) => if (due <=? t)%nat then later immediate due args d else d
  | None => d
  end.

(** [executedFunction(...args)], called at time [t]. *)
Definition executedFunction (wait : nat) (immediate : bool) (t : nat) (args : A)
    (d : Debounced) : Debounced :=
  let d := debounce_advance immediate t d in
  let callNow := immediate && negb (bool_decide (is_Some (timeout d))) in
  (* clearTimeout(timeout); timeout = setTimeout(later, wait) *)
  {| timeout := Some ((t + wait)%nat, args);
     invoked := if callNow then invoked d ++ [(t, args)] else invoked d |}.

Definition debounce_calls (wait : nat) (immediate : bool)
    (calls : list (nat * A)) (d : Debounced) : Debounced :=
  foldl (λ d c, executedFunction wait immediate c.1 c.2 d) d calls.

(** Calls that follow one another by less than [wait]. *)
Fixpoint burst (wait previous : nat) (calls : list (nat * A)) : Prop :=
  match calls with
  | [] => True
  | c :: calls' =>
      (previous ≤ c.1)%nat ∧ (c.1 < previous + wait)%nat ∧ burst wait c.1 calls'
  end.

(** *** [throttle(func, limit)] *)

(** The closure's variable [inThrottle], the due times of the timers that
    reset it, and the log of the calls of [func]. *)
Record Throttled : Type := {
  inThrottle : bool;
  resets : list nat;
  passed : list (nat * A)
}.

(** Time passes up to [t]: the reset timers due by then fire. *)
Definition throttle_advance (t : nat) (th : Throttled) : Throttled :=
  {| inThrottle :=
       if bool_decide (Exists (λ due, due ≤ t)%nat (resets th))
       then false else inThrottle th;
     resets := filter (λ due, ¬ (due ≤ t)%nat) (resets th);
     passed := passed th |}.

(** The throttled function, called at time [t]. *)
Definition throttled (limit : nat) (t : nat) (args : A) (th : Throttled) : Throttled :=
  let th := throttle_advance t th in
  if inThrottle th
  then th
  else {| inThrottle := true;
          resets := resets th ++ [(t + limit)%nat];
          passed := passed th ++ [(t, args)] |}.

Definition throttle_calls (limit : nat) (calls : list (nat * A))
    (th : Throttled) : Throttled :=
  foldl (λ th c, throttled limit c.1 c.2 th) th calls.

(** Call times in the order of the clock, from [previous] on. *)
Fixpoint in_order (previous : nat) (calls : list (nat * A)) : Prop :=
  match calls with
  | [] => True
  | c :: calls' => (previous ≤ c.1)%nat ∧ in_order c.1 calls'
  end.

(** Logged calls at least [limit] apart. *)
Fixpoint spaced (limit : nat) (log : list (nat * A)) : Prop :=
  match log with
  | [] => True
  | c :: log' =>
      match log' with
      | [] => True
      | c' :: _ => (c.1 + limit ≤ c'.1)%nat
      end ∧ spaced limit log'
  end.

(** What holds between two calls of a throttled function, at time [now]. *)
Definition throttle_state_ok (limit now : nat) (th : Throttled) : Prop :=
  spaced limit (passed th) ∧
  match last (passed th) with
  | Some c =>
      (c.1 ≤ now)%nat ∧
      if inThrottle th
      then resets th = [(c.1 + limit)%nat]
      else resets th = [] ∧ (c.1 + limit ≤ now)%nat
  | None => inThrottle th = false ∧ resets th = []
  end.

End Wrappers.

Arguments timeout {A} _.
Arguments invoked {A} _.
Arguments inThrottle {A} _.
Arguments resets {A} _.
Arguments passed {A} _.

(** *** [isInViewport(element, threshold)] *)

(** [element.getBoundingClientRect()] *)
Record DOMRect : Type := {
  top : Qc; left : Qc; bottom : Qc; right : Qc; width : Qc; height : Qc
}.

(** The sizes the function reads from the window and the document. *)
Record Viewport : Type := {
  innerHeight : Qc; innerWidth : Qc;
  clientHeight : Qc; clientWidth : Qc
}.

(** [a || b] on numbers: 0 is falsy. *)
Definition number_or (a b : Qc) : Qc :=
  if bool_decide (a = Qc_of_Z 0) then b else a.

Definition isInViewport (rect : DOMRect) (v : Viewport) (threshold : Qc) : bool :=
  let windowHeight := number_or (innerHeight v) (clientHeight v) in
  let windowWidth := number_or (innerWidth v) (clientWidth v) in
  bool_decide (- threshold * height rect ≤ top rect)%Qc
  && bool_decide (- threshold * width rect ≤ left rect)%Qc
  && bool_decide (bottom rect ≤ windowHeight + threshold * height rect)%Qc
  && bool_decide (right rect ≤ windowWidth + threshold * width rect)%Qc.

(** The default threshold, 0.1. *)
Definition default_threshold : Qc := Q2Qc (1 # 10).

(** A rectangle's edges as the engine computes them. *)
Definition well_formed (rect : DOMRect) : Prop :=
  (Qc_of_Z 0 ≤ width rect)%Qc ∧ (Qc_of_Z 0 ≤ height rect)%Qc ∧
  bottom rect = (top rect + height rect)%Qc ∧
  right rect = (left rect + width rect)%Qc.

Definition desktop : Viewport :=
  {| innerHeight := Qc_of_Z 800; innerWidth := Qc_of_Z 1200;
     clientHeight := Qc_of_Z 800; clientWidth := Qc_of_Z 1185 |}.

Definition banner : DOMRect :=
  {| top := Qc_of_Z (-20); left := Qc_of_Z 0; bottom := Qc_of_Z 380;
     right := Qc_of_Z 1200; width := Qc_of_Z 1200; height := Qc_of_Z 400 |}.

End Utilities.

(** ** Performance: deferred image loading *)

Module PerformanceOptimizer.

(** An [img] element: its [src], its [data-src] attribute as
    [img.dataset.src] reads it, and its classes. *)
Record Image : Type := {
  src : string;
  dataset_src : option string;
  classList : list string
}.

(** [supported] says whether the window has an IntersectionObserver;
    images are named by their position in document order; [targets] is the
    image observer's list of observation targets, as in
    [ScrollAnimations.World]. *)
Record World : Type := {
  supported : bool;
  images : list Image;
  targets : list (nat * option ScrollAnimations.Observation)
}.

Definition set_images (v : list Image) (w : World) : World :=
  {| supported := supported w; images := v; targets := targets w |}.

Definition set_targets (v : list (nat * option ScrollAnimations.Observation))
    (w : World) : World :=
  {| supported := supported w; images := images w; targets := v |}.

Definition observe (img : nat) (w : World) : World :=
  if bool_decide (img ∈ (targets w).*1)
  then w
  else set_targets (targets w ++ [(img, None)]) w.

Definition unobserve (img : nat) (w : World) : World :=
  set_targets (filter (λ t, t.1 ≠ img) (targets w)) w.

(** [img.src = img.dataset.src; img.classList.remove('lazy')]: a missing
    attribute reads as undefined, which the assignment turns into text. *)
Definition loaded (img : Image) : Image :=
  {| src := default "undefined" (dataset_src img);
     dataset_src := dataset_src img;
     classList := ClassList.remove "lazy" (classList img) |}.

(** The image observer's callback. *)
Definition imageObserver_callback (entries : list ScrollAnimations.Entry)
    (w : World) : World :=
  foldl (λ w entry,
           if ScrollAnimations.entry_isIntersecting entry
           then unobserve (ScrollAnimations.target entry)
                  (set_images
                     (alter loaded (ScrollAnimations.target entry) (images w)) w)
           else w)
        w entries.

(** One rendering update of the engine, as for the reveal observer. *)
Definition update_image_observations (obs : nat → ScrollAnimations.Observation)
    (w : World) : World :=
  imageObserver_callback
    (ScrollAnimations.queued_entries obs (targets w))
    (set_targets (ScrollAnimations.record_observations obs (targets w)) w).

Definition has_data_src (w : World) (img : nat) : bool :=
  match images w !! img with
  | Some i => bool_decide (dataset_src i ≠ None)
  | None => false
  end.

(** [lazyLoadImages]: with no IntersectionObserver in the window nothing is
    set up. *)
Definition lazyLoadImages (w : World) : World :=
  if supported w
  then foldl (λ w img, observe img w) w
         (filter (λ img, has_data_src w img = true) (seq 0 (length (images w))))
  else w.

Definition run (updates : list (nat → ScrollAnimations.Observation))
    (w : World) : World :=
  foldl (λ w obs, update_image_observations obs w) w updates.

(** The images the set-up put under observation. *)
Definition deferred (w0 : World) : list nat := (targets (lazyLoadImages w0)).*1.

(** Every image is as the page had it, or loaded when it was deferred and
    has left observation. *)
Definition lazy_inv (w0 w : World) : Prop :=
  NoDup (targets w).*1 ∧
  (∀ i, i ∈ (targets w).*1 → i ∈ deferred w0) ∧
  ∀ i img0, images w0 !! i = Some img0 →
    images w !! i =
      Some (if bool_decide (i ∈ deferred w0 ∧ i ∉ (targets w).*1)
            then loaded img0 else img0).

Definition photo : Image :=
  {| src := "placeholder.gif"; dataset_src := Some "team.jpg";
     classList := ["lazy"; "rounded"] |}.

Definition logo : Image :=
  {| src := "logo.svg"; dataset_src := None; classList := ["logo"] |}.

Definition gallery (with_observer : bool) : World :=
  {| supported := with_observer; images := [logo; photo]; targets := [] |}.

End PerformanceOptimizer.

(** * Properties *)

(** Equality of evaluated terms that contain rationals: structural, with the
    rationals compared by value. *)
Ltac qc_eq :=
  match goal with
  | |- @eq Qc _ _ => apply Qc_is_canon; vm_compute; reflexivity
  end.

Ltac evaluated := vm_compute; repeat first [reflexivity | qc_eq | split | f_equal].

(** ** Theme management *)

Section ThemeProperties.
Import ThemeManager.

Lemma applyTheme_available (s : State) (t : string) :
  available (world s) →
  applyTheme t s =
    ({| world :=
          set_icon (if bool_decide (t = "dark") then "fas fa-sun" else "fas fa-moon")
            {| data_theme := Some t;
               themeToggle := themeToggle (world s);
               body_transition := body_transition (world s);
               localStorage :=
                 {| failure := None;
                    items := <[key := t]> (items (localStorage (world s))) |};
               timers := timers (world s) |};
        theme := t |}, JS.Normal tt).
Proof.
  unfold available. intros Hav. destruct s as [w th]; simpl in *.
  unfold applyTheme, mbind, JS_bind, JS.bind, update_world, set_theme,
    on_world, JS.modify, setItem; simpl.
  rewrite Hav. reflexivity.
Qed.

Lemma applyTheme_unavailable (s : State) (t : string) (e : JS.exn) :
  failure (localStorage (world s)) = Some e →
  applyTheme t s =
    ({| world := setAttribute_data_theme t (world s); theme := t |}, JS.Throw e).
Proof.
  intros Hf. destruct s as [w th]; simpl in *.
  unfold applyTheme, mbind, JS_bind, JS.bind, update_world, set_theme,
    on_world, JS.modify, setItem; simpl.
  rewrite Hf. reflexivity.
Qed.

Lemma toggle_unavailable (s : State) (e : JS.exn) :
  failure (localStorage (world s)) = Some e →
  toggle s =
    ({| world := setAttribute_data_theme (other (theme s)) (world s);
        theme := other (theme s) |}, JS.Throw e).
Proof.
  intros Hf. unfold toggle, mbind, JS_bind, JS.bind, JS.gets.
  fold (other (theme s)).
  rewrite (applyTheme_unavailable s _ e Hf). reflexivity.
Qed.

Lemma toggle_available (s : State) :
  available (world s) →
  JS.outcome toggle s = JS.Normal tt ∧
  theme (JS.exec toggle s) = other (theme s) ∧
  available (world (JS.exec toggle s)) ∧
  in_sync (JS.exec toggle s).
Proof.
  intros Hav. unfold JS.outcome, JS.exec, toggle, mbind, JS_bind, JS.bind, JS.gets.
  fold (other (theme s)).
  rewrite (applyTheme_available s _ Hav).
  unfold in_sync, persisted, available; simpl.
  rewrite lookup_insert_eq. done.
Qed.


Lemma toggles_available (n : nat) (s : State) :
  available (world s) →
  available (world (fst (toggles n s))) ∧
  Forall JS.returns (snd (toggles n s)) ∧
  (0 < n → in_sync (fst (toggles n s))).
Proof.
  revert s. induction n as [|n IH]; intros s Hav; simpl.
  - split; [done|]. split; [constructor | lia].
  - destruct (toggle_available s Hav) as (Hout & _ & Hav1 & Hsync1).
    unfold JS.outcome, JS.exec in *.
    destruct (toggle s) as [s1 c]; simpl in *. subst c.
    specialize (IH s1 Hav1).
    destruct (toggles n s1) as [s2 cs] eqn:E; simpl in *.
    destruct IH as (Hav2 & Hall & Hsync2).
    split; [done|]. split; [by constructor|].
    intros _. destruct n as [|n'].
    + simpl in E. by inversion E; subst.
    + apply Hsync2. lia.
Qed.

Lemma toggles_unavailable (n : nat) (s : State) :
  unavailable (world s) →
  Forall JS.raises (snd (toggles n s)) ∧
  localStorage (world (fst (toggles n s))) = localStorage (world s) ∧
  (0 < n →
   data_theme (world (fst (toggles n s))) = Some (theme (fst (toggles n s)))).
Proof.
  revert s. induction n as [|n IH]; intros s Hun; simpl.
  - split; [constructor|]. split; [done | lia].
  - unfold unavailable in Hun.
    destruct (failure (localStorage (world s))) as [e|] eqn:Hf; [|done].
    rewrite (toggle_unavailable s e Hf).
    set (s1 := {| world := setAttribute_data_theme (other (theme s)) (world s);
                  theme := other (theme s) |}).
    assert (Hun1 : unavailable (world s1)) by (unfold unavailable; simpl; by rewrite Hf).
    specialize (IH s1 Hun1).
    destruct (toggles n s1) as [s2 cs] eqn:E; simpl in *.
    destruct IH as (Hall & Hst & Hattr).
    split; [by constructor|]. split; [done|].
    intros _. destruct n as [|n'].
    + simpl in E. by inversion E; subst.
    + apply Hattr. lia.
Qed.

Lemma new_unavailable (w : World) :
  unavailable w → ∃ e, new w = (w, JS.Throw e).
Proof.
  unfold unavailable, new, getItem. intros Hun.
  destruct (failure (localStorage w)) as [e|]; [|done]. by exists e.
Qed.

(** With the storage available the constructor returns a controller whose
    theme is the stored preference, or ["dark"] when none (or an empty
    one) is stored, and every click on the toggle returns. *)
Lemma new_available (w : World) :
  available w →
  ∃ s, snd (new w) = JS.Normal s ∧
       theme s = or_default (persisted w) "dark" ∧
       in_sync s ∧ available (world s).
Proof.
  intros Hav. unfold new, getItem. rewrite Hav.
  unfold init, mbind, JS_bind, JS.bind, JS.gets, bindEvents, update_world,
    JS.modify; simpl.
  rewrite applyTheme_available by done. simpl.
  eexists; split; [reflexivity|].
  unfold in_sync, persisted, available; simpl.
  rewrite lookup_insert_eq.
  by destruct (themeToggle w).
Qed.

Lemma toggle_theme (s : State) : theme (JS.exec toggle s) = other (theme s).
Proof.
  destruct (failure (localStorage (world s))) as [e|] eqn:Hf.
  - unfold JS.exec. by rewrite (toggle_unavailable s e Hf).
  - by destruct (toggle_available s Hf) as (_ & H & _).
Qed.



(** C2 (as the code has it): with the storage unavailable the constructor
    propagates the exception of the preference read and leaves the page
    untouched; each toggle of an existing controller sets the document
    attribute and the theme field and then propagates the exception of the
    preference write, without reaching the icon or the transition. *)
Theorem theme_storage_failure_propagates (w : World) (t : string) (n : nat) :
  unavailable w →
  JS.raises (snd (new w)) ∧
  fst (new w) = w ∧
  JS.exec toggle {| world := w; theme := t |} =
    {| world := setAttribute_data_theme (other t) w; theme := other t |} ∧
  Forall JS.raises (snd (toggles (S n) {| world := w; theme := t |})).
Proof.
  intros Hun.
  destruct (new_unavailable w Hun) as [e ->]; simpl.
  split; [done|]. split; [done|]. split.
  - unfold unavailable in Hun.
    destruct (failure (localStorage w)) as [e'|] eqn:Hf; [|done].
    unfold JS.exec. by rewrite (toggle_unavailable {| world := w; theme := t |} e' Hf).
  - by apply (toggles_unavailable (S n) {| world := w; theme := t |}).
Qed.

Lemma theme_storage_failure_propagates_witness :
  JS.raises (snd (new page_no_storage)) ∧
  Forall JS.raises (snd (toggles 2 {| world := page_no_storage; theme := "dark" |})).
Proof.
  destruct (theme_storage_failure_propagates page_no_storage "dark" 1) as (H1 & _ & _ & H2).
  - unfold unavailable; simpl; discriminate.
  - split; [exact H1 | exact H2].
Defined.

(** C2 as stated fails: on a page whose storage raises, the constructor
    does not return, and neither does a toggle. *)
Lemma theme_storage_failure_counterexample :
  unavailable page_no_storage ∧
  ¬ JS.returns (snd (new page_no_storage)) ∧
  ¬ JS.returns (JS.outcome toggle {| world := page_no_storage; theme := "dark" |}).
Proof.
  split; [unfold unavailable; simpl; discriminate|].
  split; vm_compute; tauto.
Qed.

End ThemeProperties.

(** ** DOMTokenList *)

Section ClassListProperties.
Import ClassList.

Lemma contains_add (tok : string) (cl : list string) :
  contains tok (add tok cl) = true.
Proof.
  unfold add. destruct (contains tok cl) eqn:E; [exact E|].
  unfold contains. apply bool_decide_eq_true. set_solver.
Qed.

Lemma add_idempotent (tok : string) (cl : list string) :
  add tok (add tok cl) = add tok cl.
Proof. unfold add at 1. by rewrite contains_add. Qed.

Lemma remove_idempotent (tok : string) (cl : list string) :
  remove tok (remove tok cl) = remove tok cl.
Proof.
  unfold remove. induction cl as [|t cl IH]; [done|].
  rewrite filter_cons. case_decide; [|done].
  rewrite filter_cons. case_decide; [|done]. by rewrite IH.
Qed.

Lemma remove_add (tok : string) (cl : list string) :
  remove tok (add tok cl) = remove tok cl.
Proof.
  unfold add. destruct (contains tok cl); [done|].
  unfold remove. rewrite filter_app, filter_cons.
  case_decide; [done|]. by rewrite filter_nil, app_nil_r.
Qed.

Lemma contains_remove (tok : string) (cl : list string) :
  contains tok (remove tok cl) = false.
Proof.
  unfold contains, remove. rewrite bool_decide_eq_false.
  rewrite list_elem_of_filter. tauto.
Qed.

End ClassListProperties.

(** ** Navigation management *)

Section NavigationProperties.
Import NavigationManager.

Lemma forEach_menuItems_compose (f g : nat → Link → Link) (ls : list Link) :
  (∀ i l, in_menu (f i l) = in_menu l) →
  ∀ index,
    forEach_menuItems g index (forEach_menuItems f index ls) =
    forEach_menuItems (λ i l, g i (f i l)) index ls.
Proof.
  intros Hf. induction ls as [|l ls IH]; intros index; simpl; [done|].
  destruct (in_menu l) eqn:E; simpl.
  - by rewrite Hf, E, IH.
  - by rewrite E, IH.
Qed.

Lemma forEach_menuItems_ext (f g : nat → Link → Link) (ls : list Link) :
  (∀ i l, f i l = g i l) →
  ∀ index, forEach_menuItems f index ls = forEach_menuItems g index ls.
Proof.
  intros Hfg. induction ls as [|l ls IH]; intros index; simpl; [done|].
  destruct (in_menu l); by rewrite ?Hfg, IH.
Qed.

(** Writing the same animation properties over any earlier ones. *)
Lemma forEach_menuItems_overwrite (a d a' d' : nat → CssValue) (ls : list Link) :
  ∀ index,
    forEach_menuItems (λ i, set_animation (a' i) (d' i)) index
      (forEach_menuItems (λ i, set_animation (a i) (d i)) index ls) =
    forEach_menuItems (λ i, set_animation (a' i) (d' i)) index ls.
Proof.
  intros index. rewrite forEach_menuItems_compose by done.
  by apply forEach_menuItems_ext.
Qed.

Ltac run_menu :=
  unfold openMobileMenu, closeMobileMenu, mbind, JS_bind, JS.bind,
    navMenu_classList, navToggle_classList, JS.modify, JS.exec; simpl.

Lemma openMobileMenu_idempotent (p : Page) :
  openMobileMenu (JS.exec openMobileMenu p) = openMobileMenu p.
Proof.
  destruct p as [n [tg|] [mn|] ls secs y ov]; run_menu;
    rewrite ?add_idempotent; try reflexivity.
  unfold set_navLinks; simpl.
  by rewrite (forEach_menuItems_overwrite
                (λ _, Text "fadeInUp 0.3s ease forwards")
                (λ i, Seconds (Finite (Qc_of_Z (Z.of_nat i) * tenth)))
                (λ _, Text "fadeInUp 0.3s ease forwards")
                (λ i, Seconds (Finite (Qc_of_Z (Z.of_nat i) * tenth)))).
Qed.

Lemma closeMobileMenu_idempotent (p : Page) :
  closeMobileMenu (JS.exec closeMobileMenu p) = closeMobileMenu p.
Proof.
  destruct p as [n [tg|] [mn|] ls secs y ov]; run_menu;
    rewrite ?remove_idempotent; try reflexivity.
  unfold set_navLinks; simpl.
  by rewrite (forEach_menuItems_overwrite
                (λ _, Text "") (λ _, Text "") (λ _, Text "") (λ _, Text "")).
Qed.

Lemma closeMobileMenu_after_open (p : Page) :
  closeMobileMenu (JS.exec openMobileMenu p) = closeMobileMenu p.
Proof.
  destruct p as [n [tg|] [mn|] ls secs y ov]; run_menu;
    rewrite ?remove_add; try reflexivity.
  unfold set_navLinks; simpl.
  by rewrite (forEach_menuItems_overwrite
                (λ _, Text "fadeInUp 0.3s ease forwards")
                (λ i, Seconds (Finite (Qc_of_Z (Z.of_nat i) * tenth)))
                (λ _, Text "") (λ _, Text "")).
Qed.

(** C8: opening an open menu and closing a closed menu change nothing,
    and closing after opening gives back the closed state. *)
Theorem mobile_menu_idempotent (p : Page) :
  (let opened := JS.exec openMobileMenu p in
   JS.exec openMobileMenu opened = opened) ∧
  (let closed := JS.exec closeMobileMenu p in
   JS.exec closeMobileMenu closed = closed ∧
   JS.exec closeMobileMenu (JS.exec openMobileMenu closed) = closed).
Proof.
  split; [|split]; simpl.
  - unfold JS.exec at 1. by rewrite openMobileMenu_idempotent.
  - unfold JS.exec at 1. by rewrite closeMobileMenu_idempotent.
  - unfold JS.exec at 1. rewrite closeMobileMenu_after_open.
    fold (JS.exec closeMobileMenu (JS.exec closeMobileMenu p)).
    unfold JS.exec at 1. by rewrite closeMobileMenu_idempotent.
Qed.

Lemma is_active_deactivate (l : Link) : is_active (deactivate l) = false.
Proof. unfold is_active, deactivate; simpl. apply contains_remove. Qed.

Lemma is_active_activate (l : Link) : is_active (activate l) = true.
Proof. unfold is_active, activate; simpl. apply contains_add. Qed.

Lemma deactivate_activate (l : Link) : deactivate (activate l) = deactivate l.
Proof. unfold deactivate, activate, set_classList; simpl. by rewrite remove_add. Qed.

Lemma deactivate_idempotent (l : Link) : deactivate (deactivate l) = deactivate l.
Proof. unfold deactivate, set_classList; simpl. by rewrite remove_idempotent. Qed.

Lemma active_count_deactivate (ls : list Link) :
  active_count (map deactivate ls) = 0.
Proof.
  unfold active_count. induction ls as [|l ls IH]; [done|]. simpl.
  rewrite filter_cons. rewrite is_active_deactivate.
  case_decide; [done|]. exact IH.
Qed.

Lemma active_count_cons (l : Link) (ls : list Link) :
  active_count (l :: ls) =
  (if is_active l then 1 else 0) + active_count ls.
Proof.
  unfold active_count. rewrite filter_cons.
  destruct (is_active l); case_decide; done.
Qed.

Lemma active_count_activate_first (target : string) (ls : list Link) :
  active_count ls = 0 → (active_count (activate_first target ls) ≤ 1)%nat.
Proof.
  induction ls as [|l ls IH]; simpl; [unfold active_count; simpl; lia|].
  rewrite active_count_cons. intros H0.
  case_bool_decide.
  - rewrite active_count_cons. destruct (is_active (activate l)), (is_active l); lia.
  - rewrite active_count_cons. destruct (is_active l); [lia|].
    simpl in *. by apply IH.
Qed.

Lemma map_deactivate_activate_first (target : string) (ls : list Link) :
  map deactivate (activate_first target ls) = map deactivate ls.
Proof.
  induction ls as [|l ls IH]; simpl; [done|].
  case_bool_decide; simpl.
  - by rewrite deactivate_activate.
  - by rewrite IH.
Qed.

Lemma map_deactivate_idempotent (ls : list Link) :
  map deactivate (map deactivate ls) = map deactivate ls.
Proof.
  rewrite map_map. apply map_ext. intros l. apply deactivate_idempotent.
Qed.

(** The loop over the sections as one step: the last section in document
    order whose bounds contain the position decides. *)
Lemma foldl_visit_section (scrollPos : Qc) (ls : list Link) (secs : list Section_) :
  foldl (visit_section scrollPos) ls secs =
  match last (filter (λ sec, in_bounds scrollPos sec = true) secs) with
  | Some sec => activate_first ("#" ++ id sec) (map deactivate ls)
  | None => ls
  end.
Proof.
  induction secs as [|sec secs IH] using rev_ind; [done|].
  rewrite foldl_app; simpl. rewrite filter_app, filter_cons, filter_nil.
  unfold visit_section at 1.
  destruct (in_bounds scrollPos sec) eqn:E.
  - case_decide; [|done]. rewrite last_snoc. rewrite IH.
    destruct (last _); [|done].
    by rewrite map_deactivate_activate_first, map_deactivate_idempotent.
  - case_decide; [done|]. by rewrite app_nil_r.
Qed.

Lemma updateActiveNavLink_last_match (p : Page) :
  navLinks (updateActiveNavLink p) =
  match last (filter (λ sec, in_bounds (scrollY p + Qc_of_Z 100) sec = true)
                     (sections p)) with
  | Some sec => activate_first ("#" ++ id sec) (map deactivate (navLinks p))
  | None => navLinks p
  end.
Proof. unfold updateActiveNavLink; simpl. apply foldl_visit_section. Qed.

(** C5: the bounds comparison with the 100px lookahead selects the link
    of the last section that matches; in the two-section example the
    update marks B's link at scrollY=450 and A's link at scrollY=350. *)
Theorem active_link_selection :
  (∀ p : Page,
     navLinks (updateActiveNavLink p) =
     match last (filter (λ sec, in_bounds (scrollY p + Qc_of_Z 100) sec = true)
                        (sections p)) with
     | Some sec => activate_first ("#" ++ id sec) (map deactivate (navLinks p))
     | None => navLinks p
     end) ∧
  (∀ sec scrollPos,
     in_bounds scrollPos sec = true ↔
     (Qc_of_Z (offsetTop sec) ≤ scrollPos
      ∧ scrollPos < Qc_of_Z (offsetTop sec + offsetHeight sec))%Qc) ∧
  (∀ clA clB,
     active_hrefs (navLinks (updateActiveNavLink (page_AB clA clB (Qc_of_Z 450))))
     = [Some "#B"]) ∧
  (∀ clA clB,
     active_hrefs (navLinks (updateActiveNavLink (page_AB clA clB (Qc_of_Z 350))))
     = [Some "#A"]).
Proof.
  split; [exact updateActiveNavLink_last_match|]. split.
  { intros sec scrollPos. unfold in_bounds.
    rewrite andb_true_iff, !bool_decide_eq_true. done. }
  split; intros clA clB; rewrite updateActiveNavLink_last_match.
  - change (last _) with (Some {| id := "B"; offsetTop := 500; offsetHeight := 500 |}).
    cbn -[ClassList.remove ClassList.add].
    change (bool_decide (Some "#A" = Some ("#" +:+ "B"))) with false.
    change (bool_decide (Some "#B" = Some ("#" +:+ "B"))) with true.
    unfold active_hrefs. rewrite !filter_cons, filter_nil.
    rewrite is_active_activate, is_active_deactivate.
    repeat case_decide; done.
  - change (last _) with (Some {| id := "A"; offsetTop := 0; offsetHeight := 500 |}).
    cbn -[ClassList.remove ClassList.add].
    change (bool_decide (Some "#A" = Some ("#" +:+ "A"))) with true.
    unfold active_hrefs. rewrite !filter_cons, filter_nil.
    rewrite is_active_activate, is_active_deactivate.
    repeat case_decide; done.
Qed.

(** C6: an update keeps the number of links marked active at zero or one. *)
Theorem at_most_one_active_link (p : Page) :
  (active_count (navLinks p) ≤ 1)%nat →
  (active_count (navLinks (updateActiveNavLink p)) ≤ 1)%nat.
Proof.
  intros H. rewrite updateActiveNavLink_last_match.
  destruct (last _); [|done].
  apply active_count_activate_first, active_count_deactivate.
Qed.

Lemma at_most_one_active_link_witness :
  (active_count
     (navLinks (updateActiveNavLink
                  (page_AB ["nav-link"; "active"] ["nav-link"] (Qc_of_Z 450)))) ≤ 1)%nat.
Proof.
  apply (at_most_one_active_link (page_AB ["nav-link"; "active"] ["nav-link"] (Qc_of_Z 450))).
  vm_compute. lia.
Defined.

(** C10: when the lookahead position lies in no section's bounds the
    update leaves every link, and with it every active marker, as it was. *)
Theorem no_match_keeps_active_markers (p : Page) :
  (∀ sec, sec ∈ sections p →
          in_bounds (scrollY p + Qc_of_Z 100) sec = false) →
  updateActiveNavLink p = p.
Proof.
  intros Hno. destruct p as [n tg mn ls secs y ov].
  unfold updateActiveNavLink, set_navLinks; simpl in *. f_equal.
  induction secs as [|sec secs IH] using rev_ind; [done|].
  rewrite foldl_app; simpl. unfold visit_section at 1.
  rewrite Hno by set_solver. apply IH. intros s Hs. apply Hno. set_solver.
Qed.

Lemma no_match_keeps_active_markers_witness :
  updateActiveNavLink (page_AB ["nav-link"; "active"] ["nav-link"] (Qc_of_Z 2000))
  = page_AB ["nav-link"; "active"] ["nav-link"] (Qc_of_Z 2000).
Proof.
  apply (no_match_keeps_active_markers
           (page_AB ["nav-link"; "active"] ["nav-link"] (Qc_of_Z 2000))).
  intros sec Hsec. simpl in Hsec.
  apply list_elem_of_In in Hsec. simpl in Hsec.
  destruct Hsec as [<- | [<- | []]]; vm_compute; reflexivity.
Defined.

End NavigationProperties.

(** ** Scroll animations *)

Section ScrollAnimationsProperties.
Import ScrollAnimations.

Variable ToNumber : string → Number.

Lemma fst_filter_ne (el : nat) (ts : list (nat * option Observation)) :
  (filter (λ t, t.1 ≠ el) ts).*1 = filter (λ x, x ≠ el) ts.*1.
Proof.
  induction ts as [|[x o] ts IH]; [done|].
  rewrite fmap_cons, (filter_cons (λ x, x ≠ el)), filter_cons. simpl.
  destruct (decide (x ≠ el)); [rewrite fmap_cons; simpl; f_equal|]; exact IH.
Qed.

Lemma length_filter_snoc {A} (P : A → Prop) `{∀ x, Decision (P x)}
    (l : list A) (x : A) :
  length (filter P (l ++ [x])%list) =
  (length (filter P l) + (if decide (P x) then 1 else 0))%nat.
Proof.
  rewrite filter_app, length_app, filter_cons, filter_nil.
  by case_decide.
Qed.

Lemma length_filter_delete {A} (P : A → Prop) `{∀ x, Decision (P x)}
    (l : list A) (i : nat) (x : A) :
  l !! i = Some x →
  (length (filter P (delete i l)) + (if decide (P x) then 1 else 0))%nat =
  length (filter P l).
Proof.
  revert i. induction l as [|a l IH]; intros [|i] Hi; simplify_eq/=.
  - rewrite filter_cons. case_decide; simpl; lia.
  - rewrite !filter_cons. specialize (IH i Hi).
    destruct (decide (P a)); simpl; lia.
Qed.

Lemma pending_setTimeout (el : nat) (cb : callback) (d : Number) (w : World) :
  pending el (setTimeout cb d w) =
  (pending el w + (if animates el cb then 1 else 0))%nat.
Proof.
  unfold pending, setTimeout; simpl. rewrite length_filter_snoc. simpl.
  destruct (animates el cb); case_decide; done.
Qed.

Lemma fired_snoc (el el' : nat) (w : World) :
  fired el (set_triggered (triggered w ++ [el']) w) =
  (fired el w + (if bool_decide (el' = el) then 1 else 0))%nat.
Proof.
  unfold fired; simpl. rewrite length_filter_snoc.
  case_decide; case_bool_decide; done.
Qed.

Lemma animateElement_frame (el : nat) (w : World) :
  targets (animateElement ToNumber el w) = targets w ∧
  (shots el (animateElement ToNumber el w) ≤ shots el w + 1)%nat ∧
  ∀ el', el' ≠ el →
         shots el' (animateElement ToNumber el w) = shots el' w.
Proof.
  unfold animateElement, shots. destruct (elements w !! el) as [e|].
  - split; [done|]. split.
    + rewrite pending_setTimeout. simpl. unfold fired; simpl.
      case_bool_decide; lia.
    + intros el' Hne. rewrite pending_setTimeout. simpl.
      rewrite bool_decide_eq_false_2 by done. unfold fired; simpl. lia.
  - repeat split; first [lia | done].
Qed.

Lemma unobserve_frame (el : nat) (w : World) :
  (targets (unobserve el w)).*1 = filter (λ x, x ≠ el) (targets w).*1 ∧
  ∀ el', shots el' (unobserve el w) = shots el' w.
Proof. split; [apply fst_filter_ne | done]. Qed.

Lemma reveal_inv_entry (el : nat) (w : World) :
  reveal_inv w → el ∈ (targets w).*1 →
  reveal_inv (unobserve el (animateElement ToNumber el w)) ∧
  (targets (unobserve el (animateElement ToNumber el w))).*1 =
    filter (λ x, x ≠ el) (targets w).*1.
Proof.
  intros [Hnd Hshots] Hel.
  destruct (animateElement_frame el w) as (Ht & Hs & Hs').
  destruct (unobserve_frame el (animateElement ToNumber el w)) as [Hu Hus].
  rewrite Ht in Hu. split; [|exact Hu].
  split; [rewrite Hu; by apply NoDup_filter|].
  intros el'. rewrite Hu, Hus, list_elem_of_filter.
  destruct (decide (el' = el)) as [->|Hne].
  - destruct (Hshots el) as [_ H0]. specialize (H0 Hel).
    split; [lia | tauto].
  - rewrite (Hs' el' Hne). destruct (Hshots el') as [H1 H0].
    split; [exact H1 | tauto].
Qed.

Lemma observer_callback_inv (entries : list Entry) (w : World) :
  reveal_inv w →
  NoDup (map target entries) →
  (∀ e, e ∈ entries → target e ∈ (targets w).*1) →
  reveal_inv (observer_callback ToNumber entries w).
Proof.
  revert w. induction entries as [|e es IH]; intros w Hinv Hnd Hin; [done|].
  simpl in Hnd. apply NoDup_cons in Hnd as [Hfresh Hnd].
  unfold observer_callback; simpl.
  fold (observer_callback ToNumber es).
  destruct (entry_isIntersecting e).
  - destruct (reveal_inv_entry (target e) w Hinv) as [Hinv' Ht'];
      [apply Hin; set_solver|].
    apply IH; [done | done |].
    intros e' He'. rewrite Ht', list_elem_of_filter.
    split; [|apply Hin; set_solver].
    intros Heq. apply Hfresh. rewrite <- Heq.
    apply list_elem_of_fmap. by exists e'.
  - apply IH; [done | done |]. intros e' He'. apply Hin. set_solver.
Qed.

Lemma queued_entries_targets (obs : nat → Observation)
    (ts : list (nat * option Observation)) :
  NoDup ts.*1 →
  NoDup (map target (queued_entries obs ts)) ∧
  ∀ e, e ∈ queued_entries obs ts → target e ∈ ts.*1.
Proof.
  induction ts as [|[x o] ts IH]; intros Hnd.
  - split; [constructor | set_solver].
  - rewrite fmap_cons in *. apply NoDup_cons in Hnd as [Hx Hnd].
    destruct (IH Hnd) as [IH1 IH2]. cbn [queued_entries].
    case_bool_decide.
    + split; [done|]. intros e He. apply elem_of_cons. right. by apply IH2.
    + split.
      * cbn [map]. apply NoDup_cons. split; [|done].
        intros Hin. apply Hx.
        apply list_elem_of_fmap in Hin as (e & Heq & He).
        simpl in Heq. rewrite Heq. by apply IH2.
      * intros e He. apply elem_of_cons.
        apply elem_of_cons in He as [->|He]; [by left | right; by apply IH2].
Qed.

Lemma record_observations_fst (obs : nat → Observation)
    (ts : list (nat * option Observation)) :
  (record_observations obs ts).*1 = ts.*1.
Proof.
  unfold record_observations. induction ts as [|t ts IH]; [done|].
  cbn [map]. rewrite !fmap_cons. cbn [fst]. by f_equal.
Qed.

Lemma reveal_inv_frame (obs : nat → Observation) (w : World) :
  reveal_inv w → reveal_inv (update_intersection_observations ToNumber obs w).
Proof.
  intros [Hnd Hshots]. unfold update_intersection_observations.
  destruct (queued_entries_targets obs (targets w) Hnd) as [Hq1 Hq2].
  apply observer_callback_inv.
  - split; simpl; [by rewrite record_observations_fst|].
    intros el. rewrite record_observations_fst. apply Hshots.
  - exact Hq1.
  - intros e He. simpl. rewrite record_observations_fst. by apply Hq2.
Qed.

Lemma reveal_inv_timeout (i : nat) (w : World) :
  reveal_inv w → reveal_inv (step ToNumber w (Timeout i)).
Proof.
  intros [Hnd Hshots]. cbn [step].
  destruct (timers w !! i) as [[d cb]|] eqn:Hi; [|done].
  set (w1 := set_timers (delete i (timers w)) w).
  assert (Hcount : ∀ el,
    (pending el w1 + (if animates el cb then 1 else 0))%nat = pending el w).
  { intros el. unfold pending; simpl.
    rewrite <- (length_filter_delete _ (timers w) i (d, cb) Hi). simpl.
    destruct (animates el cb); case_decide; done. }
  assert (Hfired : ∀ el, fired el w1 = fired el w) by done.
  assert (Htargets : targets w1 = targets w) by done.
  clearbody w1.
  destruct cb as [el0 ty|]; unfold JS.exec, fire, mbind, JS_bind, JS.bind,
    JS.modify, JS.throw; cbn [fst snd].
  - assert (Hinv : reveal_inv (set_triggered (triggered w1 ++ [el0]) w1)).
    { split; [simpl; by rewrite Htargets|]. intros el.
      specialize (Hcount el). simpl in Hcount.
      destruct (Hshots el) as [H1 H0]. unfold shots in *.
      rewrite fired_snoc, Hfired.
      change (pending el (set_triggered _ w1)) with (pending el w1).
      change (targets (set_triggered _ w1)) with (targets w1).
      rewrite Htargets.
      split; [case_bool_decide; lia|].
      intros Hel. specialize (H0 Hel). case_bool_decide; lia. }
    destruct (has_whitespace _); [exact Hinv|].
    destruct Hinv as [Hnd' Hs']. split; [done|]. exact Hs'.
  - split; [simpl; by rewrite Htargets|]. intros el.
    specialize (Hcount el). simpl in Hcount.
    destruct (Hshots el) as [H1 H0]. unfold shots in *.
    change (pending el (set_inThrottle _ w1)) with (pending el w1).
    change (fired el (set_inThrottle _ w1)) with (fired el w1).
    change (targets (set_inThrottle _ w1)) with (targets w1).
    rewrite Hfired, Htargets.
    split; [lia|]. intros Hel. specialize (H0 Hel). lia.
Qed.

Lemma reveal_inv_scroll (y : Qc) (w : World) :
  reveal_inv w → reveal_inv (step ToNumber w (Scroll y)).
Proof.
  intros [Hnd Hshots]; simpl. unfold throttled_handleParallax; simpl.
  destruct (inThrottle w); [done|].
  split; [done|]. intros el. destruct (Hshots el) as [H1 H0].
  unfold shots in *. rewrite pending_setTimeout. simpl.
  change (pending el (set_inThrottle _ (handleParallax _ (set_scrollY _ w))))
    with (pending el w).
  change (fired el (setTimeout _ _ _)) with (fired el w).
  rewrite Nat.add_0_r. split; [exact H1 | exact H0].
Qed.

Lemma reveal_inv_step (ev : Event) (w : World) :
  reveal_inv w → reveal_inv (step ToNumber w ev).
Proof.
  destruct ev as [obs | i | y].
  - apply reveal_inv_frame.
  - apply reveal_inv_timeout.
  - apply reveal_inv_scroll.
Qed.

Lemma reveal_inv_run (events : list Event) (w : World) :
  reveal_inv w → reveal_inv (run ToNumber events w).
Proof.
  revert w. induction events as [|ev events IH]; intros w Hinv; [done|].
  simpl. apply IH. by apply reveal_inv_step.
Qed.

Lemma reveal_inv_observe (el : nat) (w : World) :
  reveal_inv w → shots el w = 0%nat → reveal_inv (observe el w).
Proof.
  intros [Hnd Hshots] H0. unfold observe. case_bool_decide as Hin; [done|].
  split; simpl.
  - rewrite fmap_app. apply NoDup_app. split; [done|]. split.
    + intros x Hx Hx'. apply list_elem_of_singleton in Hx'. by subst.
    + apply NoDup_singleton.
  - intros el'. change (shots el' (set_targets _ w)) with (shots el' w).
    split; [apply Hshots|]. rewrite fmap_app. simpl.
    intros [Hel'|Hel']%elem_of_app; [by apply Hshots|].
    apply list_elem_of_singleton in Hel' as ->. exact H0.
Qed.

Lemma reveal_inv_load (els : list Element) (y : Qc) :
  reveal_inv (load els y).
Proof.
  unfold load, init, setupIntersectionObserver.
  set (w0 := {| elements := els; targets := []; timers := []; triggered := [];
                scrollY := y; inThrottle := false |}).
  generalize (filter (λ el, has_data_aos w0 el = true) (seq 0 (length (elements w0)))).
  intros l.
  assert (Hinv0 : reveal_inv w0 ∧ ∀ el, shots el w0 = 0%nat).
  { split; [split; [constructor|]|]; intros el; unfold shots, pending, fired;
      simpl; try done.
    split; [lia | done]. }
  revert Hinv0. generalize w0. clear w0.
  induction l as [|el l IH]; intros w [Hinv H0]; [done|].
  simpl. apply IH. split.
  - by apply reveal_inv_observe.
  - intros el'. unfold observe. case_bool_decide; apply H0.
Qed.

(** C4: over any run of rendering updates, timers and scrolls of the
    loaded page, the reveal trigger of an element runs or is scheduled at
    most once, and once it is the element is no longer observed. *)
Theorem reveal_fires_at_most_once (els : list Element) (y : Qc)
    (events : list Event) (el : nat) :
  let w := run ToNumber events (load els y) in
  (fired el w + pending el w ≤ 1)%nat ∧
  ((1 ≤ fired el w + pending el w)%nat → el ∉ (targets w).*1).
Proof.
  intros w.
  destruct (reveal_inv_run events (load els y) (reveal_inv_load els y))
    as [_ Hshots].
  destruct (Hshots el) as [H1 H0]. fold w in H1, H0. unfold shots in *.
  split; [lia|]. intros Hge Hin. specialize (H0 Hin). lia.
Qed.

Lemma handleParallax_lookup (w : World) (i : nat) :
  elements (handleParallax ToNumber w) !! i =
  (λ element,
     if is_parallax element
     then set_transform (TranslateY_px (yPos ToNumber (scrollY w) element)) element
     else element) <$> elements w !! i.
Proof. unfold handleParallax; simpl. apply list_lookup_fmap. Qed.

(** A scroll event that finds the throttle open runs the handler for the
    new scroll position; one that finds it closed changes no element. *)
Lemma scroll_event_applies (w : World) (y : Qc) (i : nat) (e : Element) :
  inThrottle w = false →
  elements w !! i = Some e →
  is_parallax e = true →
  transform <$> elements (step ToNumber w (Scroll y)) !! i =
    Some (TranslateY_px (yPos ToNumber y e)).
Proof.
  intros Ht He Hp. cbn [step]. unfold throttled_handleParallax.
  change (inThrottle (set_scrollY y w)) with (inThrottle w). rewrite Ht.
  change (elements (setTimeout ?c ?d (set_inThrottle ?b ?w'))) with (elements w').
  rewrite handleParallax_lookup.
  change (elements (set_scrollY y w)) with (elements w). rewrite He.
  simpl. by rewrite Hp.
Qed.

Lemma scroll_event_throttled (w : World) (y : Qc) :
  inThrottle w = true →
  elements (step ToNumber w (Scroll y)) = elements w.
Proof.
  intros Ht. cbn [step]. unfold throttled_handleParallax.
  change (inThrottle (set_scrollY y w)) with (inThrottle w). by rewrite Ht.
Qed.


End ScrollAnimationsProperties.

Lemma reveal_fires_at_most_once_witness :
  let w := ScrollAnimations.run ScrollAnimations.ToNumber_decimal
             ScrollAnimations.card_crossings
             (ScrollAnimations.load
                [ScrollAnimations.hero; ScrollAnimations.card;
                 ScrollAnimations.paragraph] (Qc_of_Z 0)) in
  (ScrollAnimations.fired 1 w + ScrollAnimations.pending 1 w ≤ 1)%nat ∧
  1%nat ∉ (ScrollAnimations.targets w).*1.
Proof.
  intros w.
  destruct (reveal_fires_at_most_once ScrollAnimations.ToNumber_decimal
              [ScrollAnimations.hero; ScrollAnimations.card;
               ScrollAnimations.paragraph] (Qc_of_Z 0)
              ScrollAnimations.card_crossings 1) as [H1 H2].
  split; [exact H1 | apply H2; vm_compute; lia].
Defined.

(** The card of the example is revealed exactly once, by the timer set at
    its first visible crossing. *)
Example card_revealed_once :
  let w := ScrollAnimations.run ScrollAnimations.ToNumber_decimal
             ScrollAnimations.card_crossings
             (ScrollAnimations.load
                [ScrollAnimations.hero; ScrollAnimations.card;
                 ScrollAnimations.paragraph] (Qc_of_Z 0)) in
  ScrollAnimations.triggered w = [1%nat] ∧
  ScrollAnimations.timers w = [] ∧
  ScrollAnimations.targets w = [] ∧
  (ScrollAnimations.classList <$> ScrollAnimations.elements w !! 1%nat) =
    Some ["feature-card"; "parallax"; "aos-animate-fade-up"] ∧
  (ScrollAnimations.opacity <$> ScrollAnimations.elements w !! 1%nat) = Some "1".
Proof. vm_compute. done. Qed.


(** A speed attribute of 0.5 gives what the default gives. *)
Example parallax_explicit_half_speed :
  let banner :=
    {| ScrollAnimations.data_aos := None;
       ScrollAnimations.data_aos_delay := None;
       ScrollAnimations.data_speed := Some "0.5";
       ScrollAnimations.classList := ["parallax"];
       ScrollAnimations.opacity := "";
       ScrollAnimations.transform := Text "" |} in
  ScrollAnimations.transform
    <$> ScrollAnimations.elements
          (ScrollAnimations.handleParallax ScrollAnimations.ToNumber_decimal
             (ScrollAnimations.load [banner] (Qc_of_Z 200))) !! 0%nat
  = Some (TranslateY_px (Finite (Qc_of_Z (-100)))).
Proof. evaluated. Qed.

(** With a speed attribute of 0.25 the same scroll position gives -50px. *)
Example parallax_quarter_speed :
  let w := ScrollAnimations.load
             [ScrollAnimations.hero; ScrollAnimations.card;
              ScrollAnimations.paragraph] (Qc_of_Z 200) in
  ScrollAnimations.transform
    <$> ScrollAnimations.elements
          (ScrollAnimations.handleParallax ScrollAnimations.ToNumber_decimal w) !! 1%nat
  = Some (TranslateY_px (Finite (Qc_of_Z (-50)))).
Proof. evaluated. Qed.


(** ** Interactive components *)

Section InteractiveProperties.
Import InteractiveComponents.

Lemma lookup_update_button (w : World) (i : nat) (f : Button → Button) :
  buttons (update_button i f w) !! i = f <$> buttons w !! i.
Proof. unfold update_button; simpl. apply list_lookup_alter_eq. Qed.

Lemma button_markup_set_innerHTML (w : World) (i : nat) (b : Button)
    (markup : list Node) :
  buttons w !! i = Some b →
  button_markup (set_innerHTML i markup w) i = Some markup.
Proof.
  intros Hb. unfold button_markup, set_innerHTML.
  change (buttons (set_next_node ?n ?w')) with (buttons w').
  rewrite lookup_update_button, Hb. simpl. unfold innerHTML; simpl.
  f_equal. apply snd_zip. by rewrite length_seq.
Qed.

(** The three stages after a click on a button that has both listeners:
    what is put back at the end is the markup read when the loading
    listener ran, which is the markup before the click followed by the
    ripple span the first listener had just appended. *)
Lemma click_loading_sequence (w : World) (i : nat) (b : Button) (clientX clientY : Qc) :
  buttons w !! i = Some b →
  ripple_listener b = true →
  loading_listener b = true →
  let size := Qc_max (rect_width b) (rect_height b) in
  let ripple := RippleSpan size (clientX - rect_left b - size / two)%Qc
                  (clientY - rect_top b - size / two)%Qc in
  let captured := (innerHTML b ++ [ripple])%list in
  let w1 := click i clientX clientY w in
  let w2 := fire (ShowSuccess i captured) w1 in
  let w3 := fire (RestoreLabel i captured) w2 in
  (button_markup w1 i = Some processing ∧
   disabled <$> buttons w1 !! i = Some true ∧
   timers w1 = (timers w ++ [(now w + 600, RemoveRipple (next_node w));
                             (now w + 2000, ShowSuccess i captured)])%nat%list) ∧
  (button_markup w2 i = Some success ∧
   background <$> buttons w2 !! i = Some "var(--color-accent)" ∧
   timers w2 = (timers w1 ++ [(now w1 + 2000, RestoreLabel i captured)])%nat%list) ∧
  (button_markup w3 i = Some captured ∧
   disabled <$> buttons w3 !! i = Some false ∧
   background <$> buttons w3 !! i = Some "").
Proof.
  intros Hb Hr Hl size ripple captured w1 w2 w3.
  set (b1 := set_childNodes (childNodes b ++ [(next_node w, ripple)])
               (set_position_overflow "relative" "hidden" b)).
  assert (Hb1 : buttons (createRippleEffect clientX clientY i w) !! i = Some b1).
  { unfold createRippleEffect. rewrite Hb.
    change (buttons (setTimeout ?c ?d ?w')) with (buttons w').
    rewrite lookup_update_button.
    change (buttons (set_next_node ?n w)) with (buttons w). by rewrite Hb. }
  assert (Hcap : innerHTML b1 = captured).
  { unfold innerHTML, b1; simpl. by rewrite fmap_app. }
  assert (Hw1 : w1 =
    setTimeout (ShowSuccess i captured) 2000
      (update_button i (set_disabled true)
         (set_innerHTML i processing (createRippleEffect clientX clientY i w)))).
  { unfold w1, click. rewrite Hb, Hr, Hl. unfold showLoadingState.
    by rewrite Hb1, Hcap. }
  assert (Hm1 : button_markup w1 i = Some processing ∧
                disabled <$> buttons w1 !! i = Some true).
  { rewrite Hw1. unfold button_markup.
    change (buttons (setTimeout ?c ?d ?w')) with (buttons w').
    rewrite lookup_update_button.
    pose proof (button_markup_set_innerHTML _ i b1 processing Hb1) as Hp.
    unfold button_markup in Hp.
    destruct (buttons (set_innerHTML i processing _) !! i) as [b2|]; [|done].
    simpl in *. done. }
  destruct Hm1 as [Hm1 Hd1].
  assert (Hb1' : ∃ b', buttons w1 !! i = Some b').
  { destruct (buttons w1 !! i); [by eexists | done]. }
  destruct Hb1' as [b1' Hb1'].
  split; [split; [exact Hm1|split; [exact Hd1|]]|].
  { rewrite Hw1. unfold createRippleEffect. rewrite Hb. simpl.
    by rewrite <- app_assoc. }
  assert (Hm2 : button_markup w2 i = Some success ∧
                background <$> buttons w2 !! i = Some "var(--color-accent)").
  { unfold w2, fire, button_markup.
    change (buttons (setTimeout ?c ?d ?w')) with (buttons w').
    rewrite lookup_update_button.
    pose proof (button_markup_set_innerHTML _ i b1' success Hb1') as Hp.
    unfold button_markup in Hp.
    destruct (buttons (set_innerHTML i success _) !! i) as [b2|]; [|done].
    simpl in *. done. }
  destruct Hm2 as [Hm2 Hbg2].
  assert (Hb2 : ∃ b', buttons w2 !! i = Some b').
  { destruct (buttons w2 !! i); [by eexists | done]. }
  destruct Hb2 as [b2 Hb2].
  split; [split; [exact Hm2|split; [exact Hbg2|done]]|].
  unfold w3, fire, button_markup.
  rewrite !lookup_update_button.
  pose proof (button_markup_set_innerHTML _ i b2 captured Hb2) as Hp.
  unfold button_markup in Hp.
  destruct (buttons (set_innerHTML i captured _) !! i) as [b3|]; [|done].
  simpl in *. done.
Qed.

Lemma earliest_spec (ts : list (nat * callback)) :
  match earliest ts with
  | Some (j, t) => ts !! j = Some t ∧ ∀ t', t' ∈ ts → (t.1 ≤ t'.1)%nat
  | None => ts = []
  end.
Proof.
  induction ts as [|t ts IH]; [done|]. simpl.
  destruct (earliest ts) as [[j t']|].
  - destruct IH as [Hj Hmin]. destruct (Nat.ltb_spec t'.1 t.1).
    + split; [done|]. intros t0 [->|H0]%elem_of_cons; [lia | by apply Hmin].
    + split; [done|]. intros t0 [->|H0]%elem_of_cons; [lia|].
      specialize (Hmin t0 H0). lia.
  - subst ts. split; [done|]. intros t0 [->|H0]%elem_of_cons; [lia|].
    by apply elem_of_nil in H0.
Qed.

Lemma total_weight_delete (ts : list (nat * callback)) (j : nat) (t : nat * callback) :
  ts !! j = Some t →
  (total_weight (delete j ts) + weight t.2)%nat = total_weight ts.
Proof.
  revert j. induction ts as [|a ts IH]; intros [|j] Hj; simplify_eq/=; [lia|].
  specialize (IH j Hj). lia.
Qed.

Lemma total_weight_snoc (ts : list (nat * callback)) (t : nat * callback) :
  total_weight (ts ++ [t]) = (total_weight ts + weight t.2)%nat.
Proof. induction ts as [|a ts IH]; simpl; lia. Qed.

Lemma fire_weight (cb : callback) (w : World) :
  (total_weight (timers (fire cb w)) < total_weight (timers w) + weight cb)%nat.
Proof.
  destruct cb as [r | i orig | i orig]; simpl.
  - lia.
  - rewrite total_weight_snoc. simpl. lia.
  - lia.
Qed.

(** The event loop has fuel enough: when it stops, the clock is at [t]
    and no callback due by then is left. *)
Lemma run_timers_complete (fuel t : nat) (w : World) :
  (total_weight (timers w) < fuel)%nat →
  now (run_timers fuel t w) = t ∧
  ∀ tm, tm ∈ timers (run_timers fuel t w) → (t < tm.1)%nat.
Proof.
  revert w. induction fuel as [|fuel IH]; intros w Hfuel; [lia|].
  simpl. pose proof (earliest_spec (timers w)) as Hspec.
  destruct (earliest (timers w)) as [[j [due cb]]|].
  - destruct Hspec as [Hj Hmin]. destruct (Nat.leb_spec due t).
    + apply IH.
      pose proof (fire_weight cb
        (set_timers (delete j (timers w)) (set_now (now w `max` due) w))) as Hw.
      simpl in Hw. pose proof (total_weight_delete _ _ _ Hj) as Hd.
      simpl in Hd. lia.
    + split; [done|]. intros tm Htm. simpl in Htm.
      specialize (Hmin tm Htm). simpl in Hmin. lia.
  - split; [done|]. simpl. rewrite Hspec. intros tm Htm.
    by apply elem_of_nil in Htm.
Qed.

Lemma elapse_complete (ms : nat) (w : World) :
  now (elapse ms w) = (now w + ms)%nat ∧
  ∀ tm, tm ∈ timers (elapse ms w) → (now w + ms < tm.1)%nat.
Proof. apply run_timers_complete. lia. Qed.

Example demo_click_stage1 :
  let w1 := click 0 (Qc_of_Z 150) (Qc_of_Z 220) demo_page in
  button_markup w1 0 = Some processing ∧
  (disabled <$> buttons w1 !! 0%nat) = Some true.
Proof. vm_compute. done. Qed.

Example demo_click_stage2 :
  let w2 := elapse 2000 (click 0 (Qc_of_Z 150) (Qc_of_Z 220) demo_page) in
  button_markup w2 0 = Some success ∧
  (background <$> buttons w2 !! 0%nat) = Some "var(--color-accent)" ∧
  now w2 = 2000%nat.
Proof. vm_compute. done. Qed.

Example demo_click_stage3 :
  let w3 := elapse 2000 (elapse 2000 (click 0 (Qc_of_Z 150) (Qc_of_Z 220) demo_page)) in
  button_markup w3 0 =
    Some [TextNode "Get Started";
          RippleSpan (Qc_of_Z 160) (Qc_of_Z (-30)) (Qc_of_Z (-60))] ∧
  (disabled <$> buttons w3 !! 0%nat) = Some false ∧
  (background <$> buttons w3 !! 0%nat) = Some "" ∧
  timers w3 = [] ∧ now w3 = 4000%nat.
Proof. evaluated. Qed.

(** C9 on the code: one click on a call-to-action button runs the three
    stages, but the content put back after the second delay is the
    content before the click followed by a ripple span: the loading
    listener reads [innerHTML] after the ripple listener has appended its
    span. *)
Theorem button_loading_restores_stale_ripple :
  let w1 := click 0 (Qc_of_Z 150) (Qc_of_Z 220) demo_page in
  let w2 := elapse 2000 w1 in
  let w3 := elapse 2000 w2 in
  button_markup demo_page 0 = Some [TextNode "Get Started"] ∧
  (button_markup w1 0 = Some processing ∧
   disabled <$> buttons w1 !! 0%nat = Some true) ∧
  (button_markup w2 0 = Some success ∧
   background <$> buttons w2 !! 0%nat = Some "var(--color-accent)") ∧
  (button_markup w3 0 =
     Some [TextNode "Get Started";
           RippleSpan (Qc_of_Z 160) (Qc_of_Z (-30)) (Qc_of_Z (-60))] ∧
   disabled <$> buttons w3 !! 0%nat = Some false ∧
   background <$> buttons w3 !! 0%nat = Some "" ∧
   timers w3 = [] ∧ now w3 = 4000%nat) ∧
  button_markup w3 0 ≠ button_markup demo_page 0.
Proof.
  intros w1 w2 w3.
  split; [reflexivity|]. split; [by vm_compute|]. split; [by vm_compute|].
  split; [unfold w3, w2, w1; evaluated|].
  vm_compute. intros H. discriminate H.
Qed.

End InteractiveProperties.

(** ** Smooth scroll *)

Section SmoothScrollProperties.
Import SmoothScroll.

Lemma smoothScrollTo_no_target (w : Window) (targetId : string) (offset : Qc) :
  querySelector w targetId = JS.Normal None →
  smoothScrollTo targetId offset w = (w, JS.Normal tt).
Proof. intros H. unfold smoothScrollTo. by rewrite H. Qed.

Lemma smoothScrollTo_invalid_selector (w : Window) (targetId : string)
    (offset : Qc) (e : JS.exn) :
  querySelector w targetId = JS.Throw e →
  smoothScrollTo targetId offset w = (w, JS.Throw e).
Proof. intros H. unfold smoothScrollTo. by rewrite H. Qed.

Lemma half_duration : (duration / two)%Qc = five_hundred.
Proof. qc_eq. Qed.

Lemma five_hundred_pos : (Qc_of_Z 0 < five_hundred)%Qc.
Proof. by vm_compute. Qed.

Lemma five_hundred_neq_0 : five_hundred ≠ Q2Qc 0.
Proof. intros H. discriminate H. Qed.

Lemma two_neq_0 : two ≠ Q2Qc 0.
Proof. intros H. discriminate H. Qed.

(** Past the duration the curve is on its second branch. *)
Lemma late_not_first_branch (t : Qc) :
  (duration ≤ t)%Qc → ¬ (t / five_hundred < one)%Qc.
Proof.
  intros Hle Hlt.
  apply (Qcmult_lt_compat_r _ _ five_hundred) in Hlt; [|exact five_hundred_pos].
  replace (t / five_hundred * five_hundred)%Qc with t in Hlt
    by (field; exact five_hundred_neq_0).
  assert (Hlt' : (t < duration)%Qc).
  { eapply Qclt_trans; [exact Hlt|]. by vm_compute. }
  by apply Qclt_not_le in Hlt'.
Qed.

(** What the curve gives at and past the duration: the end position plus
    a cubic of the time past the duration. *)
Lemma easeInOutCubic_late (t b c : Qc) :
  (duration ≤ t)%Qc →
  easeInOutCubic t b c duration =
  (b + c + c / two * ((t - duration) / five_hundred)
                   * ((t - duration) / five_hundred)
                   * ((t - duration) / five_hundred))%Qc.
Proof.
  intros Hle. unfold easeInOutCubic. rewrite half_duration.
  rewrite bool_decide_eq_false_2 by by apply late_not_first_branch.
  replace duration with (two * five_hundred)%Qc by qc_eq.
  field. split; [exact five_hundred_neq_0 | exact two_neq_0].
Qed.

Lemma easeInOutCubic_at_duration (b c : Qc) :
  easeInOutCubic duration b c duration = (b + c)%Qc.
Proof.
  rewrite easeInOutCubic_late by apply Qcle_refl.
  replace (duration - duration)%Qc with (Q2Qc 0) by ring.
  field. split; [exact five_hundred_neq_0 | exact two_neq_0].
Qed.

(** The last frame of an animation: it writes the end position plus the
    cubic excess, and requests no further frame. *)
Lemma animation_last_frame (a : Animation) (s currentTime : Qc) (w : Window) :
  start a = Some s →
  (duration ≤ currentTime - s)%Qc →
  let excess := ((currentTime - s - duration) / five_hundred)%Qc in
  frames (animation a currentTime w) = frames w ∧
  scrolled (animation a currentTime w) =
    (scrolled w ++
     [(startPosition a + distance a
       + distance a / two * excess * excess * excess)%Qc])%list.
Proof.
  intros Hs Hle excess. unfold animation. rewrite Hs.
  rewrite bool_decide_eq_false_2 by by apply Qcle_not_lt.
  simpl. by rewrite easeInOutCubic_late.
Qed.

(** Past the duration, and with somewhere to go, the last frame does not
    write the end position. *)
Lemma animation_overshoots (a : Animation) (s currentTime : Qc) (w : Window) :
  start a = Some s →
  (duration < currentTime - s)%Qc →
  distance a ≠ Q2Qc 0 →
  last (scrolled (animation a currentTime w)) ≠
    Some (startPosition a + distance a)%Qc.
Proof.
  intros Hs Hlt Hd.
  destruct (animation_last_frame a s currentTime w Hs (Qclt_le_weak _ _ Hlt))
    as [_ ->].
  rewrite last_snoc. intros Heq. apply (inj Some) in Heq.
  set (x := ((currentTime - s - duration) / five_hundred)%Qc) in *.
  assert (Hk : (distance a / two * x * x * x)%Qc = Q2Qc 0).
  { replace (distance a / two * x * x * x)%Qc
      with ((startPosition a + distance a + distance a / two * x * x * x)
            - (startPosition a + distance a))%Qc by ring.
    rewrite Heq. ring. }
  assert (Hx : x ≠ Q2Qc 0).
  { intros Hx0. apply (Qclt_not_eq _ _ Hlt).
    replace (currentTime - s)%Qc with (x * five_hundred + duration)%Qc
      by (unfold x; field; exact five_hundred_neq_0).
    rewrite Hx0. ring. }
  apply Qcmult_integral in Hk as [Hk|Hk]; [|done].
  apply Qcmult_integral in Hk as [Hk|Hk]; [|done].
  apply Qcmult_integral in Hk as [Hk|Hk]; [|done].
  apply Hd. replace (distance a) with (distance a / two * two)%Qc
    by (field; exact two_neq_0).
  rewrite Hk. ring.
Qed.

(** C1 on the code: from the top of the page towards [#features] (end
    position 1080 - 80 = 1000), with frames at 0, 500 and 1500 ms, the
    last frame is the first with elapsed time >= 1000 ms; it writes 1500
    and ends the animation. *)
Theorem smooth_scroll_overshoots_target :
  let w1 := JS.exec (smoothScrollTo "#features" (Qc_of_Z 80)) features_page in
  let w2 := run_frames [Qc_of_Z 0; Qc_of_Z 500; Qc_of_Z 1500] w1 in
  scrolled w2 = [Qc_of_Z 0; Qc_of_Z 500; Qc_of_Z 1500] ∧
  frames w2 = [] ∧
  last (scrolled w2) ≠ Some (Qc_of_Z 1080 - Qc_of_Z 80)%Qc.
Proof.
  intros w1 w2. split; [unfold w2, w1; evaluated|].
  split; [by vm_compute|].
  vm_compute. intros H. discriminate H.
Qed.

(** At 62.5 frames a second the first frame past the duration comes at
    1008 ms and writes 1000.002048. *)
Example smooth_scroll_16ms_frames :
  let w1 := JS.exec (smoothScrollTo "#features" (Qc_of_Z 80)) features_page in
  let w2 := run_frames (map (λ k, Qc_of_Z (16 * Z.of_nat k)) (seq 0 64)) w1 in
  frames w2 = [] ∧
  last (scrolled w2) = Some (Q2Qc (1000002048 # 1000000)).
Proof. intros w1 w2. split; [by vm_compute|]. unfold w2, w1. evaluated. Qed.

(** When a frame falls on the duration exactly, the end position is
    written. *)
Example smooth_scroll_20ms_frames :
  let w1 := JS.exec (smoothScrollTo "#features" (Qc_of_Z 80)) features_page in
  let w2 := run_frames (map (λ k, Qc_of_Z (20 * Z.of_nat k)) (seq 0 51)) w1 in
  frames w2 = [] ∧
  last (scrolled w2) = Some (Qc_of_Z 1000).
Proof. intros w1 w2. split; [by vm_compute|]. unfold w2, w1. evaluated. Qed.

Example smooth_scroll_missing_target :
  smoothScrollTo "#pricing" (Qc_of_Z 80) features_page =
    (features_page, JS.Normal tt).
Proof. by apply smoothScrollTo_no_target. Qed.

End SmoothScrollProperties.


(** * Further properties of the code *)

(** Inequalities between rationals, decided on their fractions. *)
Ltac qc_to_q :=
  repeat (progress (
    unfold Qcle, Qclt, Qcplus, Qcmult, Qcminus, Qcopp, Qcdiv, Qcinv,
      Qc_of_Z, Q2Qc in *;
    cbn [this] in *;
    rewrite ?Qred_correct in *));
  unfold inject_Z in *.

(** ** The easing curve and the scroll animation *)

Section EasingProperties.
Import SmoothScroll.

(** Side conditions of [field]: a divisor is a hypothesis or a constant. *)
Ltac side :=
  repeat split;
  first [assumption | (let H := fresh in intros H; discriminate H)].

Lemma curve_parameter_range (t d : Qc) :
  (Qc_of_Z 0 < d)%Qc → (Qc_of_Z 0 ≤ t)%Qc → (t ≤ d)%Qc →
  (Qc_of_Z 0 ≤ t / (d / two))%Qc ∧ (t / (d / two) ≤ two)%Qc.
Proof.
  intros Hd H0 H1.
  assert (Hd0 : d ≠ Q2Qc 0).
  { intros ->. revert Hd. by vm_compute. }
  assert (E : (t / (d / two) * d)%Qc = (two * t)%Qc).
  { field. split; [exact two_neq_0 | exact Hd0]. }
  revert E. generalize (t / (d / two))%Qc. intros u E.
  apply (f_equal this) in E. unfold two in *.
  destruct u as [u Hu], t as [t Ht], d as [d Hd'].
  unfold Qcmult, Q2Qc, Qc_of_Z in E. cbn [this] in E.
  apply Qred_eq_iff in E.
  qc_to_q. split; nra.
Qed.

Lemma Q_cube_unit (x : Q) :
  (0 <= x)%Q → (x <= 1)%Q → (0 <= x * x * x)%Q ∧ (x * x * x <= 1)%Q.
Proof.
  intros H0 H1.
  assert (0 <= x * x)%Q by nra.
  assert (x * x <= 1)%Q by nra.
  split; nra.
Qed.

(** The two branches of the curve, for a parameter between 0 and 2. *)
Lemma cubic_within_range (u b c : Qc) :
  (Qc_of_Z 0 ≤ u)%Qc → (u ≤ two)%Qc →
  let e := if bool_decide (u < one)%Qc
           then (c / two * u * u * u + b)%Qc
           else (c / two * ((u - two) * (u - two) * (u - two) + two) + b)%Qc in
  ((Qc_of_Z 0 ≤ c)%Qc → (b ≤ e)%Qc ∧ (e ≤ b + c)%Qc) ∧
  ((c ≤ Qc_of_Z 0)%Qc → (b + c ≤ e)%Qc ∧ (e ≤ b)%Qc).
Proof.
  intros H0 H2 e. subst e. case_bool_decide as H1.
  - unfold one, two in *. destruct u as [u Hu], b as [b Hb], c as [c Hc].
    qc_to_q.
    destruct (Q_cube_unit u H0 (Qlt_le_weak _ _ H1)) as [Hk0 Hk1].
    assert (E : (c * / 2 * u * u * u == (1 # 2) * (c * (u * u * u)))%Q) by field.
    rewrite E. clear E. revert Hk0 Hk1. generalize (u * u * u)%Q. intros k Hk0 Hk1.
    split; intros Hc'.
    + assert (0 <= c * k)%Q by nra. assert (c * k <= c)%Q by nra. split; lra.
    + assert (c * k <= 0)%Q by nra. assert (c <= c * k)%Q by nra. split; lra.
  - apply Qcnot_lt_le in H1.
    unfold one, two in *. destruct u as [u Hu], b as [b Hb], c as [c Hc].
    qc_to_q.
    assert (Hv0 : (0 <= 2 - u)%Q) by lra.
    assert (Hv1 : (2 - u <= 1)%Q) by lra.
    destruct (Q_cube_unit (2 - u) Hv0 Hv1) as [Hk0 Hk1].
    assert (E : (c * / 2 * ((u + - 2) * (u + - 2) * (u + - 2) + 2)
                 == (1 # 2) * (c * (2 - (2 - u) * (2 - u) * (2 - u))))%Q) by field.
    rewrite E. clear E.
    revert Hk0 Hk1. generalize ((2 - u) * (2 - u) * (2 - u))%Q. intros k Hk0 Hk1.
    split; intros Hc'.
    + assert (c <= c * (2 - k))%Q by nra. assert (c * (2 - k) <= 2 * c)%Q by nra.
      split; lra.
    + assert (c * (2 - k) <= c)%Q by nra. assert (2 * c <= c * (2 - k))%Q by nra.
      split; lra.
Qed.

(** X1: within its duration the easing curve stays between the start value
    and the end value: it never overshoots either. *)
Theorem easeInOutCubic_within_range (t b c d : Qc) :
  (Qc_of_Z 0 < d)%Qc → (Qc_of_Z 0 ≤ t)%Qc → (t ≤ d)%Qc →
  ((Qc_of_Z 0 ≤ c)%Qc →
     (b ≤ easeInOutCubic t b c d)%Qc ∧ (easeInOutCubic t b c d ≤ b + c)%Qc) ∧
  ((c ≤ Qc_of_Z 0)%Qc →
     (b + c ≤ easeInOutCubic t b c d)%Qc ∧ (easeInOutCubic t b c d ≤ b)%Qc).
Proof.
  intros Hd H0 H1.
  destruct (curve_parameter_range t d Hd H0 H1) as [Hu0 Hu2].
  exact (cubic_within_range (t / (d / two))%Qc b c Hu0 Hu2).
Qed.

Lemma easeInOutCubic_within_range_witness :
  (Qc_of_Z 0 ≤ easeInOutCubic (Qc_of_Z 250) (Qc_of_Z 0) (Qc_of_Z 1000) duration)%Qc ∧
  (easeInOutCubic (Qc_of_Z 250) (Qc_of_Z 0) (Qc_of_Z 1000) duration
   ≤ Qc_of_Z 0 + Qc_of_Z 1000)%Qc.
Proof.
  apply (easeInOutCubic_within_range (Qc_of_Z 250) (Qc_of_Z 0) (Qc_of_Z 1000) duration);
    by vm_compute.
Defined.

(** X2: the curve starts at the start value, is half-way at half the
    duration, and ends at the end value, for every positive duration. *)
Theorem easeInOutCubic_landmarks (b c d : Qc) :
  (Qc_of_Z 0 < d)%Qc →
  easeInOutCubic (Qc_of_Z 0) b c d = b ∧
  easeInOutCubic (d / two) b c d = (b + c / two)%Qc ∧
  easeInOutCubic d b c d = (b + c)%Qc.
Proof.
  intros Hd.
  assert (Hd0 : d ≠ Q2Qc 0).
  { intros ->. revert Hd. by vm_compute. }
  assert (E0 : Qc_of_Z 0 = Q2Qc 0) by qc_eq.
  assert (E1 : one = Q2Qc 1) by qc_eq.
  assert (E2 : two = (Q2Qc 1 + Q2Qc 1)%Qc) by qc_eq.
  unfold easeInOutCubic.
  replace (Qc_of_Z 0 / (d / two))%Qc with (Q2Qc 0)
    by (rewrite E0, E2; field; side).
  replace (d / two / (d / two))%Qc with (Q2Qc 1)
    by (rewrite E2; field; side).
  replace (d / (d / two))%Qc with (Q2Qc 1 + Q2Qc 1)%Qc
    by (rewrite E2; field; side).
  rewrite (bool_decide_eq_true_2 (Q2Qc 0 < one)%Qc) by by vm_compute.
  rewrite (bool_decide_eq_false_2 (Q2Qc 1 < one)%Qc) by by vm_compute.
  rewrite (bool_decide_eq_false_2 (Q2Qc 1 + Q2Qc 1 < one)%Qc) by by vm_compute.
  rewrite E2. split; [|split]; field; side.
Qed.

Lemma easeInOutCubic_landmarks_witness :
  easeInOutCubic (Qc_of_Z 0) (Qc_of_Z 40) (Qc_of_Z 960) duration = Qc_of_Z 40 ∧
  easeInOutCubic duration (Qc_of_Z 40) (Qc_of_Z 960) duration
  = (Qc_of_Z 40 + Qc_of_Z 960)%Qc.
Proof.
  destruct (easeInOutCubic_landmarks (Qc_of_Z 40) (Qc_of_Z 960) duration)
    as (H1 & _ & H3); [by vm_compute|].
  split; [exact H1 | exact H3].
Defined.

Lemma duration_pos : (Qc_of_Z 0 < duration)%Qc.
Proof. by vm_compute. Qed.

Lemma animation_frame_first (a : Animation) (currentTime : Qc) (w : Window) :
  frames w = [a] → start a = None →
  frames (animation_frame currentTime w) =
    [{| startPosition := startPosition a; distance := distance a;
        start := Some currentTime |}] ∧
  scrolled (animation_frame currentTime w) = (scrolled w ++ [startPosition a])%list.
Proof.
  intros Hf Hs. unfold animation_frame. rewrite Hf. cbn [foldl].
  unfold animation. rewrite Hs.
  replace (currentTime - currentTime)%Qc with (Qc_of_Z 0)
    by (apply Qc_is_canon; unfold Qcminus, Qcplus, Qcopp; simpl;
        rewrite !Qred_correct; ring).
  rewrite (bool_decide_eq_true_2 _ duration_pos).
  destruct (easeInOutCubic_landmarks (startPosition a) (distance a) duration duration_pos)
    as (-> & _ & _).
  done.
Qed.

Lemma animation_frame_running (a : Animation) (s currentTime : Qc) (w : Window) :
  frames w = [a] → start a = Some s →
  (currentTime - s < duration)%Qc →
  frames (animation_frame currentTime w) = [a] ∧
  scrolled (animation_frame currentTime w) =
    (scrolled w ++
     [easeInOutCubic (currentTime - s) (startPosition a) (distance a) duration])%list.
Proof.
  intros Hf Hs Hlt. unfold animation_frame. rewrite Hf. cbn [foldl].
  unfold animation. rewrite Hs. rewrite (bool_decide_eq_true_2 _ Hlt).
  destruct a as [b c st]. simpl in *. by subst st.
Qed.

Lemma animation_frame_last (a : Animation) (s currentTime : Qc) (w : Window) :
  frames w = [a] → start a = Some s →
  (currentTime - s)%Qc = duration →
  frames (animation_frame currentTime w) = [] ∧
  scrolled (animation_frame currentTime w) =
    (scrolled w ++ [(startPosition a + distance a)%Qc])%list.
Proof.
  intros Hf Hs He. unfold animation_frame. rewrite Hf. cbn [foldl].
  unfold animation. rewrite Hs, He.
  rewrite (bool_decide_eq_false_2 (duration < duration)%Qc) by by vm_compute.
  by rewrite easeInOutCubic_at_duration.
Qed.

Lemma run_frames_running (a : Animation) (s : Qc) (mids : list Qc) (w : Window) :
  frames w = [a] → start a = Some s →
  Forall (λ m, (m - s < duration)%Qc) mids →
  frames (run_frames mids w) = [a] ∧
  length (scrolled (run_frames mids w)) = (length (scrolled w) + length mids)%nat.
Proof.
  revert w. induction mids as [|m mids IH]; intros w Hf Hs Hall.
  - simpl. split; [done | lia].
  - apply Forall_cons in Hall as [Hm Hall]. cbn [run_frames foldl].
    destruct (animation_frame_running a s m w Hf Hs Hm) as [Hf' Hsc'].
    destruct (IH (animation_frame m w) Hf' Hs Hall) as [IH1 IH2].
    unfold run_frames in *. split; [exact IH1|].
    rewrite IH2, Hsc', length_app. simpl. lia.
Qed.

(** X3: when an animation frame falls on the duration exactly, a smooth
    scroll started on an idle window writes once per frame, ends with the
    computed target (the target's top offset minus the given offset) and
    requests no further frame. *)
Theorem smooth_scroll_on_time (w : Window) (targetId : string) (offset : Qc)
    (offsetTop : Z) (t0 : Qc) (mids : list Qc) :
  querySelector w targetId = JS.Normal (Some offsetTop) →
  frames w = [] →
  Forall (λ m, (m - t0 < duration)%Qc) mids →
  let w' := run_frames (t0 :: mids ++ [(t0 + duration)%Qc])
              (JS.exec (smoothScrollTo targetId offset) w) in
  frames w' = [] ∧
  length (scrolled w') = (length (scrolled w) + length mids + 2)%nat ∧
  last (scrolled w') = Some (Qc_of_Z offsetTop - offset)%Qc.
Proof.
  intros Hq Hf Hall w'.
  set (a0 := {| startPosition := pageYOffset w;
                distance := (Qc_of_Z offsetTop - offset - pageYOffset w)%Qc;
                start := None |}).
  assert (Hw1 : JS.exec (smoothScrollTo targetId offset) w = requestAnimationFrame a0 w).
  { unfold JS.exec, smoothScrollTo. by rewrite Hq. }
  set (w1 := requestAnimationFrame a0 w) in *.
  assert (Hf1 : frames w1 = [a0]) by (unfold w1; simpl; by rewrite Hf).
  destruct (animation_frame_first a0 t0 w1 Hf1 eq_refl) as [Hf2 Hs2].
  set (a := {| startPosition := startPosition a0; distance := distance a0;
               start := Some t0 |}) in *.
  destruct (run_frames_running a t0 mids (animation_frame t0 w1) Hf2 eq_refl Hall)
    as [Hf3 Hl3].
  set (w3 := run_frames mids (animation_frame t0 w1)) in *.
  destruct (animation_frame_last a t0 (t0 + duration)%Qc w3 Hf3 eq_refl) as [Hf4 Hs4].
  { ring. }
  assert (Hw' : w' = animation_frame (t0 + duration)%Qc w3).
  { unfold w', w3, run_frames. rewrite Hw1. cbn [foldl]. by rewrite foldl_app. }
  rewrite Hw'. split; [exact Hf4|]. rewrite Hs4. split.
  - rewrite length_app, Hl3, Hs2, length_app. simpl. lia.
  - rewrite last_snoc. f_equal. simpl. ring.
Qed.

Lemma smooth_scroll_on_time_witness :
  let w' := run_frames [Qc_of_Z 10; Qc_of_Z 510; (Qc_of_Z 10 + duration)%Qc]
              (JS.exec (smoothScrollTo "#features" (Qc_of_Z 80)) features_page) in
  frames w' = [] ∧ last (scrolled w') = Some (Qc_of_Z 1080 - Qc_of_Z 80)%Qc.
Proof.
  intros w'.
  destruct (smooth_scroll_on_time features_page "#features" (Qc_of_Z 80) 1080
              (Qc_of_Z 10) [Qc_of_Z 510]) as (H1 & _ & H3).
  - reflexivity.
  - reflexivity.
  - constructor; [by vm_compute | constructor].
  - split; [exact H1 | exact H3].
Defined.

End EasingProperties.

(** ** Navigation: scroll styling, menu toggle, link update *)

Section NavigationMore.
Import NavigationManager.

Lemma contains_add_ne (tok t : string) (cl : list string) :
  tok ≠ t → ClassList.contains tok (ClassList.add t cl) = ClassList.contains tok cl.
Proof.
  intros Hne. unfold ClassList.add. destruct (ClassList.contains t cl); [done|].
  unfold ClassList.contains. apply bool_decide_ext.
  rewrite elem_of_app, list_elem_of_singleton. tauto.
Qed.

Lemma contains_remove_ne (tok t : string) (cl : list string) :
  tok ≠ t → ClassList.contains tok (ClassList.remove t cl) = ClassList.contains tok cl.
Proof.
  intros Hne. unfold ClassList.contains, ClassList.remove. apply bool_decide_ext.
  rewrite list_elem_of_filter. tauto.
Qed.

(** X4: [handleScroll] marks the nav bar "scrolled" exactly when the page is
    scrolled past 100px, keeps the bar's other classes and updates the
    active link; on a page without a [.nav] element it raises a TypeError
    and the links are not updated. *)
Theorem handleScroll_scrolled_marker (p : Page) :
  match nav p with
  | Some cl =>
      JS.outcome handleScroll p = JS.Normal tt ∧
      (∀ tok,
         ClassList.contains tok <$> nav (JS.exec handleScroll p) =
         Some (if bool_decide (tok = "scrolled")
               then bool_decide (Qc_of_Z 100 < scrollY p)%Qc
               else ClassList.contains tok cl)) ∧
      navLinks (JS.exec handleScroll p) = navLinks (updateActiveNavLink p)
  | None => handleScroll p = (p, JS.Throw JS.TypeError)
  end.
Proof.
  destruct p as [[cl|] tg mn ls secs y ov]; cbn [nav];
    unfold JS.outcome, JS.exec, handleScroll, mbind, JS_bind, JS.bind, JS.gets,
      nav_classList, JS.modify; cbn [scrollY nav fst snd].
  - case_bool_decide as Hy; cbn [fst snd nav set_nav updateActiveNavLink set_navLinks navLinks].
    + split; [done|]. split; [|done]. intros tok. cbn [fmap option_fmap option_map].
      f_equal. case_bool_decide as Ht.
      * subst tok. apply contains_add.
      * by apply contains_add_ne.
    + split; [done|]. split; [|done]. intros tok. cbn [fmap option_fmap option_map].
      f_equal. case_bool_decide as Ht.
      * subst tok. apply contains_remove.
      * by apply contains_remove_ne.
  - by case_bool_decide.
Qed.

Lemma forEach_menuItems_animation (a d : nat → CssValue) (ls : list Link) :
  ∀ index l, l ∈ forEach_menuItems (λ i, set_animation (a i) (d i)) index ls →
             in_menu l = true → ∃ i, animation l = a i ∧ animationDelay l = d i.
Proof.
  induction ls as [|l0 ls IH]; intros index l Hl Hm; simpl in Hl.
  - by apply elem_of_nil in Hl.
  - destruct (in_menu l0) eqn:E.
    + apply elem_of_cons in Hl as [->|Hl]; [by exists index | by eapply IH].
    + apply elem_of_cons in Hl as [->|Hl]; [congruence | by eapply IH].
Qed.

(** X5: with the menu and its toggle control on the page, [toggleMobileMenu]
    returns, flips the menu's "active" marker, and leaves the control's
    marker, the scroll lock and the animation of every menu item in line
    with the new state. *)
Theorem toggleMobileMenu_alternates (p : Page) (mn tg : list string) :
  navMenu p = Some mn → navToggle p = Some tg →
  let was_open := ClassList.contains "active" mn in
  let q := JS.exec toggleMobileMenu p in
  JS.outcome toggleMobileMenu p = JS.Normal tt ∧
  ClassList.contains "active" <$> navMenu q = Some (negb was_open) ∧
  ClassList.contains "active" <$> navToggle q = Some (negb was_open) ∧
  body_overflow q = (if was_open then "" else "hidden") ∧
  ∀ item, item ∈ navLinks q → in_menu item = true →
          animation item =
            (if was_open then Text "" else Text "fadeInUp 0.3s ease forwards").
Proof.
  intros Hmn Htg was_open q. subst was_open q.
  destruct p as [n tg' mn' ls secs y ov]. simpl in Hmn, Htg. subst tg' mn'.
  unfold JS.outcome, JS.exec, toggleMobileMenu. cbn [navMenu].
  destruct (ClassList.contains "active" mn) eqn:E;
    unfold openMobileMenu, closeMobileMenu, mbind, JS_bind, JS.bind,
      navMenu_classList, navToggle_classList, JS.modify; simpl.
  - rewrite !contains_remove. repeat split; try done.
    intros item Hitem Hm.
    destruct (forEach_menuItems_animation _ _ _ _ _ Hitem Hm) as (i & Ha & _).
    exact Ha.
  - rewrite !contains_add. repeat split; try done.
    intros item Hitem Hm.
    destruct (forEach_menuItems_animation _ _ _ _ _ Hitem Hm) as (i & Ha & _).
    exact Ha.
Qed.

Lemma toggleMobileMenu_alternates_witness :
  let p := page_AB ["nav-link"] ["nav-link"] (Qc_of_Z 0) in
  ClassList.contains "active" <$> navMenu (JS.exec toggleMobileMenu p) = Some true ∧
  body_overflow (JS.exec toggleMobileMenu p) = "hidden".
Proof.
  intros p.
  destruct (toggleMobileMenu_alternates p ["nav-menu"] ["nav-toggle"])
    as (_ & H1 & _ & H2 & _).
  - reflexivity.
  - reflexivity.
  - split; [exact H1 | exact H2].
Defined.

Lemma foldl_visit_section_again (scrollPos : Qc) (ls : list Link)
    (secs : list Section_) :
  foldl (visit_section scrollPos) (foldl (visit_section scrollPos) ls secs) secs =
  foldl (visit_section scrollPos) ls secs.
Proof.
  rewrite (foldl_visit_section scrollPos (foldl _ ls secs)).
  rewrite !foldl_visit_section.
  destruct (last _) as [sec|]; [|done].
  by rewrite map_deactivate_activate_first, map_deactivate_idempotent.
Qed.

(** X6: running the active-link update a second time at the same scroll
    position changes nothing, and the update changes nothing on a link but
    its "active" marker. *)
Theorem updateActiveNavLink_idempotent (p : Page) :
  updateActiveNavLink (updateActiveNavLink p) = updateActiveNavLink p ∧
  map deactivate (navLinks (updateActiveNavLink p)) = map deactivate (navLinks p).
Proof.
  split.
  - destruct p as [n tg mn ls secs y ov].
    unfold updateActiveNavLink, set_navLinks; simpl. f_equal.
    apply foldl_visit_section_again.
  - rewrite updateActiveNavLink_last_match. destruct (last _) as [sec|]; [|done].
    by rewrite map_deactivate_activate_first, map_deactivate_idempotent.
Qed.

(** X7: opening or closing the mobile menu returns only when both the menu
    and its toggle control are on the page.  Without the menu the call
    raises a TypeError and changes nothing; with the menu but without the
    control it raises after changing the menu's marker alone, so the page
    scroll is neither locked nor released. *)
Theorem mobile_menu_missing_elements (p : Page) :
  (JS.returns (JS.outcome openMobileMenu p) ↔ navMenu p ≠ None ∧ navToggle p ≠ None) ∧
  (JS.returns (JS.outcome closeMobileMenu p) ↔ navMenu p ≠ None ∧ navToggle p ≠ None) ∧
  (navMenu p = None →
   openMobileMenu p = (p, JS.Throw JS.TypeError) ∧
   closeMobileMenu p = (p, JS.Throw JS.TypeError)) ∧
  (∀ mn, navMenu p = Some mn → navToggle p = None →
         openMobileMenu p = (set_navMenu (ClassList.add "active" mn) p,
                             JS.Throw JS.TypeError) ∧
         closeMobileMenu p = (set_navMenu (ClassList.remove "active" mn) p,
                              JS.Throw JS.TypeError)).
Proof.
  destruct p as [n [tg|] [mn|] ls secs y ov];
    unfold JS.outcome, openMobileMenu, closeMobileMenu, mbind, JS_bind, JS.bind,
      navMenu_classList, navToggle_classList, JS.modify; simpl;
    repeat split; try done; try tauto; try (intros [? ?]; done);
    try (intros ? [= <-]; done); try (intros ? [= <-] ?; done);
    by simplify_eq.
Qed.

End NavigationMore.

(** ** Theme: construction, reload and announcement *)

Section ThemeMore.
Import ThemeManager.

Lemma other_valid (t : string) : other t = "dark" ∨ other t = "light".
Proof. unfold other. case_bool_decide; auto. Qed.

Lemma toggles_S_fst (n : nat) (s : State) :
  fst (toggles (S n) s) = fst (toggles n (JS.exec toggle s)).
Proof.
  cbn [toggles]. unfold JS.exec. destruct (toggle s) as [s1 c]. cbn [fst].
  by destruct (toggles n s1).
Qed.

Lemma toggles_theme_valid (n : nat) (s : State) :
  theme (fst (toggles (S n) s)) = "dark" ∨ theme (fst (toggles (S n) s)) = "light".
Proof.
  revert s. induction n as [|n IH]; intros s; rewrite toggles_S_fst.
  - cbn [toggles fst]. rewrite toggle_theme. apply other_valid.
  - apply IH.
Qed.

(** X8: the preference survives a reload.  After any positive number of
    toggles with the storage taking the writes, a controller constructed on
    a fresh page over the same storage starts with the theme the last
    toggle left, and applies it to the document. *)
Theorem theme_survives_reload (s : State) (n : nat) (reloaded : World) :
  available (world s) →
  localStorage reloaded = localStorage (world (fst (toggles (S n) s))) →
  ∃ s', snd (new reloaded) = JS.Normal s' ∧
        theme s' = theme (fst (toggles (S n) s)) ∧
        data_theme (world s') = Some (theme s') ∧
        persisted (world s') = Some (theme s').
Proof.
  intros Hav Hst.
  destruct (toggles_available (S n) s Hav) as (Hav' & _ & Hsync).
  destruct (Hsync ltac:(lia)) as [Hp _].
  assert (Hav2 : available reloaded) by (unfold available; by rewrite Hst).
  destruct (new_available reloaded Hav2) as (s' & Hnew & Hth & [Hp' Hd'] & _).
  exists s'. split; [exact Hnew|].
  assert (Hth' : theme s' = theme (fst (toggles (S n) s))).
  { rewrite Hth. unfold persisted in *. rewrite Hst, Hp. unfold or_default.
    destruct (toggles_theme_valid n s) as [-> | ->]; reflexivity. }
  split; [exact Hth'|]. split; [exact Hd' | exact Hp'].
Qed.

Lemma theme_survives_reload_witness :
  ∃ s', snd (new (world (fst (toggles 3 {| world := page_light; theme := "light" |}))))
        = JS.Normal s' ∧ theme s' = "dark".
Proof.
  destruct (theme_survives_reload {| world := page_light; theme := "light" |} 2
              (world (fst (toggles 3 {| world := page_light; theme := "light" |}))))
    as (s' & H1 & H2 & _).
  - reflexivity.
  - reflexivity.
  - exists s'. split; [exact H1|]. rewrite H2. reflexivity.
Defined.

(** X9: with the storage available the constructor returns; it starts from
    the stored preference, or from "dark" when none or an empty one is
    stored, writes it to the document attribute and back to the storage,
    gives the toggle control's icon the sun glyph for dark and the moon
    glyph otherwise, and attaches one click listener; a page without the
    control, or a control without icon, is tolerated. *)
Theorem new_applies_preference (w : World) :
  available w →
  let t := or_default (persisted w) "dark" in
  snd (new w) =
    JS.Normal {| world := fst (new w); theme := t |} ∧
  data_theme (fst (new w)) = Some t ∧
  persisted (fst (new w)) = Some t ∧
  themeToggle (fst (new w)) =
    (λ tg, {| icon := (λ _, if bool_decide (t = "dark")
                            then "fas fa-sun" else "fas fa-moon") <$> icon tg;
              clickListeners := S (clickListeners tg) |}) <$> themeToggle w ∧
  body_transition (fst (new w)) = body_transition w ∧
  timers (fst (new w)) = timers w.
Proof.
  intros Hav t. unfold new, getItem. rewrite Hav.
  fold (persisted w). fold t.
  unfold init, mbind, JS_bind, JS.bind, JS.gets, bindEvents, update_world,
    JS.modify; cbn [theme world fst snd].
  rewrite applyTheme_available by done. cbn [fst snd world theme].
  unfold persisted; simpl. rewrite lookup_insert_eq.
  repeat split; try done.
  destruct (themeToggle w) as [[[ic|] k]|]; done.
Qed.

Lemma new_applies_preference_witness :
  data_theme (fst (new page_light)) = Some "light" ∧
  themeToggle (fst (new page_light)) =
    Some {| icon := Some "fas fa-moon"; clickListeners := 2 |}.
Proof.
  destruct (new_applies_preference page_light) as (_ & H1 & _ & H2 & _).
  - reflexivity.
  - split; [exact H1 | exact H2].
Defined.

(** X10: a toggle that the storage accepts shows the glyph of the new theme
    on the control's icon, sets the body transition and sets one 300 ms
    timer; when that timer fires the transition is cleared and the theme
    stays. *)
Theorem toggle_icon_and_transition (s : State) :
  available (world s) →
  let s1 := JS.exec toggle s in
  let w2 := fire ClearBodyTransition (world s1) in
  (icon <$> themeToggle (world s1)) =
    ((λ tg, (λ _, if bool_decide (theme s1 = "dark")
                  then "fas fa-sun" else "fas fa-moon") <$> icon tg)
     <$> themeToggle (world s)) ∧
  body_transition (world s1) = "background-color 0.3s ease, color 0.3s ease" ∧
  timers (world s1) = (timers (world s) ++ [(300%nat, ClearBodyTransition)])%list ∧
  body_transition w2 = "" ∧
  data_theme w2 = Some (theme s1) ∧ persisted w2 = Some (theme s1).
Proof.
  intros Hav s1 w2. subst w2 s1.
  unfold JS.exec, toggle, mbind, JS_bind, JS.bind, JS.gets.
  fold (other (theme s)).
  rewrite (applyTheme_available s _ Hav).
  unfold update_world, JS.modify, persisted; simpl. rewrite lookup_insert_eq.
  repeat split; try done.
  destruct (themeToggle (world s)) as [[[ic|] k]|]; done.
Qed.

Lemma toggle_icon_and_transition_witness :
  let s1 := JS.exec toggle {| world := page_light; theme := "light" |} in
  (icon <$> themeToggle (world s1)) = Some (Some "fas fa-sun") ∧
  body_transition (fire ClearBodyTransition (world s1)) = "".
Proof.
  intros s1.
  destruct (toggle_icon_and_transition {| world := page_light; theme := "light" |})
    as (H1 & _ & _ & H2 & _).
  - reflexivity.
  - split; [exact H1 | exact H2].
Defined.

End ThemeMore.

Section AnnouncedToggle.
Import AccessibilityManager.

(** X11: the toggle that the accessibility set-up installs does to the
    theme controller what the original toggle does and completes as it
    does; when the original returns, a live region on the page announces the
    theme now in force; when it raises, the exception passes through and
    nothing is announced. *)
Theorem announced_toggle (s : State) :
  themeManager (JS.exec toggle s) = JS.exec ThemeManager.toggle (themeManager s) ∧
  JS.outcome toggle s = JS.outcome ThemeManager.toggle (themeManager s) ∧
  liveRegion (JS.exec toggle s) =
    match JS.outcome ThemeManager.toggle (themeManager s), liveRegion s with
    | JS.Normal _, Some _ =>
        Some ("Theme changed to "
              ++ ThemeManager.other (ThemeManager.theme (themeManager s))
              ++ " mode")
    | _, old => old
    end.
Proof.
  pose proof (toggle_theme (themeManager s)) as Ht.
  unfold JS.exec, JS.outcome, toggle, originalThemeToggle, announce, mbind,
    JS_bind, JS.bind, JS.modify in *.
  destruct (ThemeManager.toggle (themeManager s)) as [t [[]|e]]; simpl in *.
  - rewrite Ht. by destruct (liveRegion s).
  - by destruct (liveRegion s).
Qed.

End AnnouncedToggle.

(** ** Scroll animations: throttle, reveal and parallax *)

Section ScrollAnimationsMore.
Import ScrollAnimations ScrollAnimationsState.

Variable ToNumber : string → Number.

Lemma observer_callback_frame (entries : list Entry) (w : World) :
  elements (observer_callback ToNumber entries w) = elements w ∧
  inThrottle (observer_callback ToNumber entries w) = inThrottle w ∧
  releases (observer_callback ToNumber entries w) = releases w ∧
  scrollY (observer_callback ToNumber entries w) = scrollY w.
Proof.
  revert w. induction entries as [|e es IH]; intros w; [done|].
  change (observer_callback ToNumber (e :: es) w) with
    (observer_callback ToNumber es
       (if entry_isIntersecting e
        then unobserve (target e) (animateElement ToNumber (target e) w)
        else w)).
  destruct (entry_isIntersecting e); [|apply IH].
  destruct (IH (unobserve (target e) (animateElement ToNumber (target e) w)))
    as (-> & -> & -> & ->).
  unfold animateElement. destruct (elements w !! target e) as [el|]; [|done].
  unfold releases, unobserve, setTimeout; simpl.
  rewrite filter_app, filter_cons, filter_nil. simpl.
  by rewrite app_nil_r.
Qed.

Lemma throttle_inv_step (ev : Event) (w : World) :
  throttle_inv w → throttle_inv (step ToNumber w ev).
Proof.
  unfold throttle_inv. intros Hinv. destruct ev as [obs | i | y]; cbn [step].
  - unfold update_intersection_observations.
    destruct (observer_callback_frame (queued_entries obs (targets w))
                (set_targets (record_observations obs (targets w)) w))
      as (_ & -> & -> & _).
    exact Hinv.
  - destruct (timers w !! i) as [[d cb]|] eqn:Hi; [|exact Hinv].
    pose proof (length_filter_delete (λ t : Number * callback, is_release t.2 = true)
                  (timers w) i (d, cb) Hi) as Hdel.
    fold (releases w) in Hdel. cbn [snd] in Hdel.
    destruct cb as [el ty|]; unfold JS.exec, fire, mbind, JS_bind, JS.bind,
      JS.modify, JS.throw; cbn [fst snd is_release] in *.
    + destruct (decide (false = true)) as [?|_]; [done|].
      destruct (has_whitespace _); unfold releases in *; simpl in *;
        rewrite <- Hinv; lia.
    + destruct (decide (true = true)) as [_|?]; [|done].
      unfold releases in *; simpl in *. destruct (inThrottle w); lia.
  - unfold throttled_handleParallax.
    change (inThrottle (set_scrollY y w)) with (inThrottle w).
    destruct (inThrottle w) eqn:Ht.
    + unfold releases in *; simpl. by rewrite Ht.
    + unfold releases in *; simpl in *.
      rewrite filter_app, length_app, filter_cons, filter_nil. simpl. lia.
Qed.

(** X12: the throttle of the parallax listener cannot stay shut.  In every
    state the page reaches, the throttle is shut exactly when one timer that
    reopens it is pending, and no second such timer is ever set. *)
Theorem throttle_reopens (els : list Element) (y : Qc) (events : list Event) :
  let w := run ToNumber events (load els y) in
  releases w = (if inThrottle w then 1 else 0)%nat.
Proof.
  assert (Hload : throttle_inv (load els y)).
  { unfold throttle_inv, load, init, setupIntersectionObserver.
    set (w0 := {| elements := els; targets := []; timers := []; triggered := [];
                  scrollY := y; inThrottle := false |}).
    generalize (filter (λ el, has_data_aos w0 el = true) (seq 0 (length (elements w0)))).
    intros l. assert (H0 : releases w0 = 0%nat ∧ inThrottle w0 = false) by done.
    revert H0. generalize w0. clear w0.
    induction l as [|el l IH]; intros w [Hr Ht]; simpl.
    - by rewrite Hr, Ht.
    - apply IH. unfold observe. by case_bool_decide. }
  simpl. revert Hload. generalize (load els y).
  induction events as [|ev events IH]; intros w Hinv; [exact Hinv|].
  simpl. apply IH. by apply throttle_inv_step.
Qed.

Lemma persists_refl (e : Element) : persists e e.
Proof. by repeat split. Qed.

Lemma persists_trans (e1 e2 e3 : Element) :
  persists e1 e2 → persists e2 e3 → persists e1 e3.
Proof.
  intros (A1 & A2 & A3 & A4 & A5) (B1 & B2 & B3 & B4 & B5).
  repeat split; try congruence; auto.
Qed.

Lemma step_persists (ev : Event) (w : World) (i : nat) (e : Element) :
  elements w !! i = Some e →
  ∃ e', elements (step ToNumber w ev) !! i = Some e' ∧ persists e e'.
Proof.
  intros He. destruct ev as [obs | j | y]; cbn [step].
  - unfold update_intersection_observations.
    destruct (observer_callback_frame (queued_entries obs (targets w))
                (set_targets (record_observations obs (targets w)) w)) as (-> & _).
    exists e. split; [exact He | apply persists_refl].
  - destruct (timers w !! j) as [[d cb]|]; [|exists e; split; [done | apply persists_refl]].
    destruct cb as [el ty|]; unfold JS.exec, fire, mbind, JS_bind, JS.bind,
      JS.modify, JS.throw; cbn [fst snd].
    + destruct (has_whitespace _); cbn [fst snd];
        [exists e; split; [done | apply persists_refl]|].
      unfold update_element; cbn [elements set_elements set_triggered set_timers].
      destruct (decide (el = i)) as [->|Hne].
      * rewrite list_lookup_alter_eq, He. eexists; split; [reflexivity|].
        repeat split; try done. intros tok Htok. cbn [classList animate_now].
        unfold ClassList.add. destruct (ClassList.contains _ _); [done|].
        apply elem_of_app. by left.
      * rewrite list_lookup_alter_ne by done.
        exists e. split; [done | apply persists_refl].
    + exists e. split; [done | apply persists_refl].
  - unfold throttled_handleParallax.
    change (inThrottle (set_scrollY y w)) with (inThrottle w).
    destruct (inThrottle w); [exists e; split; [done | apply persists_refl]|].
    change (elements (setTimeout ?c ?d (set_inThrottle ?b ?w'))) with (elements w').
    rewrite handleParallax_lookup.
    change (elements (set_scrollY y w)) with (elements w). rewrite He.
    eexists; split; [reflexivity|]. destruct (is_parallax e); by repeat split.
Qed.

(** X13: no event takes back a reveal.  Over any run of rendering updates,
    timers and scrolls an element keeps its data attributes and every class
    it has, and once its opacity is 1 it stays 1. *)
Theorem revealed_stays_revealed (events : list Event) (w : World) (i : nat)
    (e : Element) :
  elements w !! i = Some e →
  ∃ e', elements (run ToNumber events w) !! i = Some e' ∧ persists e e'.
Proof.
  revert w e. induction events as [|ev events IH]; intros w e He.
  - exists e. split; [exact He | apply persists_refl].
  - destruct (step_persists ev w i e He) as (e1 & He1 & Hp1).
    destruct (IH (step ToNumber w ev) e1 He1) as (e2 & He2 & Hp2).
    exists e2. split; [exact He2 | by eapply persists_trans].
Qed.

Lemma queued_entry_for (obs : nat → Observation)
    (ts : list (nat * option Observation)) (el : nat) (prev : option Observation) :
  (el, prev) ∈ ts → prev ≠ Some (obs el) →
  {| target := el; entry_isIntersecting := isIntersecting (obs el) |}
    ∈ queued_entries obs ts.
Proof.
  intros Hin Hne. induction ts as [|[x o] ts IH]; [by apply elem_of_nil in Hin|].
  cbn [queued_entries]. apply elem_of_cons in Hin as [[= <- <-]|Hin].
  - rewrite bool_decide_eq_false_2 by done. by left.
  - case_bool_decide; [by apply IH|]. right. by apply IH.
Qed.

Lemma observer_callback_keeps_timers (es : list Entry) (w : World)
    (t : Number * callback) :
  t ∈ timers w → t ∈ timers (observer_callback ToNumber es w).
Proof.
  revert w. induction es as [|e es IH]; intros w Ht; [done|].
  change (observer_callback ToNumber (e :: es) w) with
    (observer_callback ToNumber es
       (if entry_isIntersecting e
        then unobserve (target e) (animateElement ToNumber (target e) w)
        else w)).
  apply IH. destruct (entry_isIntersecting e); [|done].
  unfold animateElement. destruct (elements w !! target e); [|done].
  cbn [timers unobserve set_targets setTimeout set_timers].
  apply elem_of_app. by left.
Qed.

Lemma observer_callback_schedules (es : list Entry) (w : World) (el : nat)
    (e : Element) :
  {| target := el; entry_isIntersecting := true |} ∈ es →
  elements w !! el = Some e →
  (number_or ToNumber (data_aos_delay e) (Finite (Qc_of_Z 0)),
   Animate el (data_aos e)) ∈ timers (observer_callback ToNumber es w).
Proof.
  revert w. induction es as [|e0 es IH]; intros w Hin He;
    [by apply elem_of_nil in Hin|].
  change (observer_callback ToNumber (e0 :: es) w) with
    (observer_callback ToNumber es
       (if entry_isIntersecting e0
        then unobserve (target e0) (animateElement ToNumber (target e0) w)
        else w)).
  apply elem_of_cons in Hin as [<-|Hin].
  - cbn [entry_isIntersecting target]. apply observer_callback_keeps_timers.
    unfold animateElement. rewrite He.
    cbn [timers unobserve set_targets setTimeout set_timers].
    apply elem_of_app. right. by left.
  - apply IH; [exact Hin|].
    destruct (entry_isIntersecting e0); [|exact He].
    unfold animateElement. by destruct (elements w !! target e0).
Qed.

(** X14: the first qualifying crossing does trigger.  When a rendering
    update reports an observed element as intersecting, and that differs
    from what was recorded for it, then after the update the element's
    animation timer is pending, with the element's delay and animation kind,
    it is the only trigger the element has, and the element is no longer
    observed. *)
Theorem first_crossing_triggers (els : list Element) (y : Qc)
    (events : list Event) (obs : nat → Observation) (el : nat)
    (prev : option Observation) (e : Element) :
  let w := run ToNumber events (load els y) in
  (el, prev) ∈ targets w →
  prev ≠ Some (obs el) →
  isIntersecting (obs el) = true →
  elements w !! el = Some e →
  let w' := step ToNumber w (Frame obs) in
  (number_or ToNumber (data_aos_delay e) (Finite (Qc_of_Z 0)),
   Animate el (data_aos e)) ∈ timers w' ∧
  pending el w' = 1%nat ∧ fired el w' = 0%nat ∧
  el ∉ (targets w').*1.
Proof.
  intros w Hin Hne Hint He w'.
  pose proof (reveal_inv_run ToNumber events (load els y) (reveal_inv_load els y))
    as Hinv.
  fold w in Hinv.
  pose proof (reveal_inv_step ToNumber (Frame obs) w Hinv) as [_ Hshots'].
  fold w' in Hshots'.
  assert (Htimer : (number_or ToNumber (data_aos_delay e) (Finite (Qc_of_Z 0)),
                    Animate el (data_aos e)) ∈ timers w').
  { unfold w'. cbn [step]. unfold update_intersection_observations.
    apply observer_callback_schedules; [|exact He].
    pose proof (queued_entry_for obs (targets w) el prev Hin Hne) as Hq.
    by rewrite Hint in Hq. }
  assert (Hp : (1 ≤ pending el w')%nat).
  { unfold pending.
    assert (Hf : (number_or ToNumber (data_aos_delay e) (Finite (Qc_of_Z 0)),
                  Animate el (data_aos e))
                 ∈ filter (λ t : Number * callback, animates el t.2 = true) (timers w')).
    { apply list_elem_of_filter. split; [|exact Htimer].
      simpl. by apply bool_decide_eq_true_2. }
    destruct (filter _ (timers w')); [by apply elem_of_nil in Hf | simpl; lia]. }
  destruct (Hshots' el) as [H1 H0]. unfold shots in *.
  split; [exact Htimer|]. split; [lia|]. split; [lia|].
  intros Hel. specialize (H0 Hel). lia.
Qed.

(** X15: [handleParallax] writes transforms and nothing else.  It keeps the
    observer, the timers and the scroll position, leaves an element without
    the parallax class as it was, and on a tagged element changes the
    transform only. *)
Theorem handleParallax_writes_transform_only (w : World) (i : nat) (e : Element) :
  elements w !! i = Some e →
  targets (handleParallax ToNumber w) = targets w ∧
  timers (handleParallax ToNumber w) = timers w ∧
  scrollY (handleParallax ToNumber w) = scrollY w ∧
  length (elements (handleParallax ToNumber w)) = length (elements w) ∧
  ∃ e', elements (handleParallax ToNumber w) !! i = Some e' ∧
        same_but_transform e e' ∧
        (is_parallax e = false → e' = e).
Proof.
  intros He. split; [done|]. split; [done|]. split; [done|]. split.
  - unfold handleParallax; cbn [elements set_elements]. apply length_map.
  - rewrite handleParallax_lookup, He. eexists; split; [reflexivity|].
    destruct (is_parallax e); by repeat split.
Qed.

End ScrollAnimationsMore.

Lemma revealed_stays_revealed_witness :
  ∃ e', ScrollAnimations.elements
          (ScrollAnimations.run ScrollAnimations.ToNumber_decimal
             ScrollAnimations.card_crossings
             (ScrollAnimations.load
                [ScrollAnimations.hero; ScrollAnimations.card;
                 ScrollAnimations.paragraph] (Qc_of_Z 0))) !! 1%nat = Some e' ∧
        ScrollAnimationsState.persists ScrollAnimations.card e'.
Proof.
  apply (revealed_stays_revealed ScrollAnimations.ToNumber_decimal
           ScrollAnimations.card_crossings
           (ScrollAnimations.load
              [ScrollAnimations.hero; ScrollAnimations.card;
               ScrollAnimations.paragraph] (Qc_of_Z 0)) 1 ScrollAnimations.card).
  reflexivity.
Defined.

Lemma first_crossing_triggers_witness :
  let w := ScrollAnimations.run ScrollAnimations.ToNumber_decimal
             [ScrollAnimations.Frame (λ _, ScrollAnimations.hidden)]
             (ScrollAnimations.load
                [ScrollAnimations.hero; ScrollAnimations.card;
                 ScrollAnimations.paragraph] (Qc_of_Z 0)) in
  let w' := ScrollAnimations.step ScrollAnimations.ToNumber_decimal w
              (ScrollAnimations.Frame (λ _, ScrollAnimations.visible)) in
  ScrollAnimations.pending 1 w' = 1%nat ∧
  1%nat ∉ (ScrollAnimations.targets w').*1.
Proof.
  intros w w'.
  destruct (first_crossing_triggers ScrollAnimations.ToNumber_decimal
              [ScrollAnimations.hero; ScrollAnimations.card;
               ScrollAnimations.paragraph] (Qc_of_Z 0)
              [ScrollAnimations.Frame (λ _, ScrollAnimations.hidden)]
              (λ _, ScrollAnimations.visible) 1
              (Some ScrollAnimations.hidden) ScrollAnimations.card)
    as (_ & H1 & _ & H2).
  - vm_compute. constructor.
  - discriminate.
  - reflexivity.
  - reflexivity.
  - split; [exact H1 | exact H2].
Defined.

Lemma handleParallax_writes_transform_only_witness :
  let w := ScrollAnimations.load
             [ScrollAnimations.hero; ScrollAnimations.card;
              ScrollAnimations.paragraph] (Qc_of_Z 200) in
  ∃ e', ScrollAnimations.elements
          (ScrollAnimations.handleParallax ScrollAnimations.ToNumber_decimal w) !! 2%nat
        = Some e' ∧
        (ScrollAnimations.is_parallax ScrollAnimations.paragraph = false →
         e' = ScrollAnimations.paragraph).
Proof.
  intros w.
  destruct (handleParallax_writes_transform_only ScrollAnimations.ToNumber_decimal
              w 2 ScrollAnimations.paragraph) as (_ & _ & _ & _ & e' & H1 & _ & H2).
  - reflexivity.
  - exists e'. split; [exact H1 | exact H2].
Defined.


(** ** Interactive components: ripple, listeners, card hover *)

Section InteractiveMore.
Import InteractiveComponents InteractiveState.

Lemma Qc_max_ge (a b : Qc) : (a ≤ Qc_max a b)%Qc ∧ (b ≤ Qc_max a b)%Qc.
Proof.
  unfold Qc_max. case_bool_decide as H.
  - split; [by apply Qclt_le_weak | apply Qcle_refl].
  - split; [apply Qcle_refl | by apply Qcnot_lt_le].
Qed.

(** X16: the ripple is a circle's bounding square centred on the click.  A
    click at (clientX, clientY) appends one span to the button, after the
    children it has; the span is as wide as the larger side of the button,
    its centre is the click point relative to the button's corner, the
    button is made the positioning container that clips it, and the span's
    removal is due 600 ms later. *)
Theorem ripple_centred_on_click (w : World) (i : nat) (b : Button)
    (clientX clientY : Qc) :
  buttons w !! i = Some b →
  let w' := createRippleEffect clientX clientY i w in
  ∃ size x y b',
    buttons w' !! i = Some b' ∧
    childNodes b' = (childNodes b ++ [(next_node w, RippleSpan size x y)])%list ∧
    (rect_width b ≤ size)%Qc ∧ (rect_height b ≤ size)%Qc ∧
    (size = rect_width b ∨ size = rect_height b) ∧
    (x + size / two = clientX - rect_left b)%Qc ∧
    (y + size / two = clientY - rect_top b)%Qc ∧
    position b' = "relative" ∧ overflow b' = "hidden" ∧
    timers w' = (timers w ++ [((now w + 600)%nat, RemoveRipple (next_node w))])%list.
Proof.
  intros Hb w'. subst w'. unfold createRippleEffect. rewrite Hb.
  set (size := Qc_max (rect_width b) (rect_height b)).
  exists size, (clientX - rect_left b - size / two)%Qc,
         (clientY - rect_top b - size / two)%Qc.
  eexists. split.
  { change (buttons (setTimeout ?c ?d ?w0)) with (buttons w0).
    rewrite lookup_update_button.
    change (buttons (set_next_node ?n w)) with (buttons w). rewrite Hb.
    reflexivity. }
  destruct (Qc_max_ge (rect_width b) (rect_height b)) as [H1 H2].
  split; [done|]. split; [exact H1|]. split; [exact H2|]. split.
  { unfold size, Qc_max. case_bool_decide; auto. }
  split; [ring|]. split; [ring|]. done.
Qed.

Lemma filter_fresh (n : nat) (l : list (nat * Node)) :
  (∀ c, c ∈ l → (c.1 < n)%nat) → filter (λ c, c.1 ≠ n) l = l.
Proof.
  induction l as [|c l IH]; intros H; [done|].
  rewrite filter_cons. rewrite decide_True.
  - f_equal. apply IH. intros c' Hc'. apply H. by right.
  - specialize (H c ltac:(by left)). lia.
Qed.

Lemma set_childNodes_same (b : Button) : set_childNodes (childNodes b) b = b.
Proof. by destruct b. Qed.

Lemma run_timers_single (fuel t due : nat) (cb : callback) (w : World) :
  timers w = [(due, cb)] →
  (due ≤ t)%nat →
  timers (fire cb (set_timers [] (set_now (now w `max` due) w))) = [] →
  run_timers (S (S fuel)) t w =
    set_now t (fire cb (set_timers [] (set_now (now w `max` due) w))).
Proof.
  intros Ht Hle Hnone. cbn [run_timers]. rewrite Ht. cbn [earliest].
  apply Nat.leb_le in Hle. rewrite Hle. cbn [delete list_delete].
  destruct fuel; cbn [run_timers]; by rewrite Hnone.
Qed.

(** X17: on a button that only ripples the ripple leaves no trace in the
    content.  On an idle page, 600 ms after a click the button has the
    children it had, no timer is left, and of the click only the position
    and overflow styles remain; no other button is touched. *)
Theorem ripple_removed_after_600ms (w : World) (i : nat) (b : Button)
    (clientX clientY : Qc) :
  buttons w !! i = Some b →
  ripple_listener b = true →
  loading_listener b = false →
  timers w = [] →
  fresh_ids w →
  let w' := elapse 600 (click i clientX clientY w) in
  buttons w' = alter (set_position_overflow "relative" "hidden") i (buttons w) ∧
  timers w' = [] ∧
  now w' = (now w + 600)%nat.
Proof.
  intros Hb Hr Hl Ht Hfresh w'. subst w'.
  unfold click. rewrite Hb, Hr, Hl.
  set (w1 := createRippleEffect clientX clientY i w).
  assert (Ht1 : timers w1 = [((now w + 600)%nat, RemoveRipple (next_node w))]).
  { unfold w1, createRippleEffect. rewrite Hb. cbn. by rewrite Ht. }
  assert (Hb1 : buttons w1 =
    alter (λ b0, set_childNodes
                   (childNodes b0 ++
                    [(next_node w,
                      RippleSpan (Qc_max (rect_width b) (rect_height b))
                        (clientX - rect_left b
                         - Qc_max (rect_width b) (rect_height b) / two)%Qc
                        (clientY - rect_top b
                         - Qc_max (rect_width b) (rect_height b) / two)%Qc)])
                   (set_position_overflow "relative" "hidden" b0))
          i (buttons w)).
  { unfold w1, createRippleEffect. by rewrite Hb. }
  assert (Hn1 : now w1 = now w).
  { unfold w1, createRippleEffect. by rewrite Hb. }
  assert (He : elapse 600 w1 = run_timers 2 (now w + 600) w1).
  { unfold elapse. rewrite Ht1, Hn1. reflexivity. }
  rewrite He.
  rewrite (run_timers_single 0 (now w + 600) (now w + 600)
             (RemoveRipple (next_node w)) w1 Ht1 (Nat.le_refl _) eq_refl).
  cbn [fire remove_node set_now set_timers set_buttons buttons timers now].
  split; [|done]. rewrite Hb1.
  apply list_eq. intros j. rewrite list_lookup_fmap.
  destruct (decide (j = i)) as [->|Hne].
  - rewrite !list_lookup_alter_eq, Hb. cbn [fmap option_fmap option_map].
    f_equal. cbn [childNodes set_childNodes].
    rewrite filter_app, filter_cons, filter_nil.
    rewrite decide_False by (cbn; lia). rewrite app_nil_r.
    rewrite filter_fresh; [by destruct b|].
    intros c Hc. apply (Hfresh b c); [|exact Hc].
    eapply list_elem_of_lookup_2. exact Hb.
  - rewrite !list_lookup_alter_ne by done.
    destruct (buttons w !! j) as [bj|] eqn:Hj; [|done].
    cbn [fmap option_fmap option_map]. f_equal.
    rewrite filter_fresh; [apply set_childNodes_same|].
    intros c Hc. apply (Hfresh bj c); [|exact Hc].
    eapply list_elem_of_lookup_2. exact Hj.
Qed.

Lemma ripple_centred_on_click_witness :
  ∃ size x y b',
    buttons (createRippleEffect (Qc_of_Z 100) (Qc_of_Z 322) 0 plain_page) !! 0%nat
      = Some b' ∧
    childNodes b' =
      (childNodes plain_button ++ [(2%nat, RippleSpan size x y)])%list ∧
    (x + size / two = Qc_of_Z 100 - Qc_of_Z 40)%Qc.
Proof.
  destruct (ripple_centred_on_click plain_page 0
              (set_listeners true false plain_button) (Qc_of_Z 100) (Qc_of_Z 322))
    as (size & x & y & b' & H1 & H2 & _ & _ & _ & H3 & _).
  - reflexivity.
  - exists size, x, y, b'. split; [exact H1|]. split; [exact H2 | exact H3].
Defined.

Lemma plain_page_fresh : fresh_ids plain_page.
Proof.
  intros b c Hb Hc. cbn in Hb.
  apply list_elem_of_In in Hb. cbn in Hb.
  destruct Hb as [<- | [<- | []]]; cbn in Hc;
    apply list_elem_of_In in Hc; cbn in Hc.
  - destruct Hc as [<- | [<- | []]]; cbn; lia.
  - destruct Hc as [<- | []]; cbn; lia.
Defined.

Lemma ripple_removed_after_600ms_witness :
  let w' := elapse 600 (click 0 (Qc_of_Z 100) (Qc_of_Z 322) plain_page) in
  buttons w' =
    alter (set_position_overflow "relative" "hidden") 0 (buttons plain_page) ∧
  timers w' = [].
Proof.
  intros w'.
  destruct (ripple_removed_after_600ms plain_page 0
              (set_listeners true false plain_button) (Qc_of_Z 100) (Qc_of_Z 322))
    as (H1 & H2 & _).
  - reflexivity.
  - reflexivity.
  - reflexivity.
  - reflexivity.
  - exact plain_page_fresh.
  - split; [exact H1 | exact H2].
Defined.

Lemma starts_with_spec (p s : string) :
  starts_with p s = true ↔ ∃ post, s = p ++ post.
Proof.
  revert s. induction p as [|a p IH]; intros s; simpl.
  - split; [intros _; by exists s | done].
  - destruct s as [|c s]; simpl.
    + split; [done | intros [post Hpost]; discriminate Hpost].
    + rewrite andb_true_iff, bool_decide_eq_true, IH. split.
      * intros [-> [post ->]]. by exists post.
      * intros [post [= -> ->]]. split; [done | by exists post].
Qed.

Lemma includes_spec (needle s : string) :
  includes needle s = true ↔ ∃ pre post, s = pre ++ needle ++ post.
Proof.
  induction s as [|c s IH]; cbn [includes]; rewrite orb_true_iff, starts_with_spec.
  - split.
    + intros [[post Hpost]|Hf]; [by exists "", post | done].
    + intros (pre & post & Heq). left. destruct pre as [|a pre]; [|discriminate Heq].
      by exists post.
  - rewrite IH. split.
    + intros [[post Hpost]|(pre & post & ->)]; [by exists "", post|].
      by exists (String c pre), post.
    + intros (pre & post & Heq). destruct pre as [|a pre]; simpl in Heq.
      * left. by exists post.
      * right. injection Heq as -> ->. by exists pre, post.
Qed.

(** X18: which buttons load.  After [setupButtonInteractions] every button
    has the ripple listener; it has the loading listener exactly when it
    carries the class [pricing-btn] or its text contains "Demo" somewhere;
    nothing else about the button changes. *)
Theorem setupButtonInteractions_listeners (w : World) (i : nat) (b : Button) :
  buttons w !! i = Some b →
  ∃ b', buttons (setupButtonInteractions w) !! i = Some b' ∧
        ripple_listener b' = true ∧
        (loading_listener b' = true ↔
           "pricing-btn" ∈ classList b ∨
           ∃ pre post, button_textContent b = pre ++ "Demo" ++ post) ∧
        set_listeners (ripple_listener b) (loading_listener b) b' = b.
Proof.
  intros Hb. unfold setupButtonInteractions; cbn [buttons set_buttons].
  rewrite list_lookup_fmap, Hb. eexists; split; [reflexivity|].
  split; [done|]. split; [|by destruct b].
  cbn [loading_listener set_listeners].
  rewrite orb_true_iff, includes_spec. unfold ClassList.contains.
  by rewrite bool_decide_eq_true.
Qed.

Lemma setupButtonInteractions_listeners_witness :
  ∃ b', buttons plain_page !! 1%nat = Some b' ∧ loading_listener b' = true.
Proof.
  destruct (setupButtonInteractions_listeners
              {| buttons := [plain_button; demo_button]; timers := []; now := 0;
                 next_node := 2 |} 1 demo_button) as (b' & H1 & _ & H2 & _).
  - reflexivity.
  - exists b'. split; [exact H1|]. apply H2. left. cbn.
    apply list_elem_of_In. cbn. tauto.
Defined.

End InteractiveMore.

Section CardHoverProperties.
Import CardHover.

Lemma handle_lookup (cards : list CssValue) (ev : Event) (i : nat) :
  handle cards ev !! i =
  if bool_decide (card_of ev = i)
  then (λ _, written ev) <$> cards !! i
  else cards !! i.
Proof.
  destruct ev as [j|j]; cbn [handle card_of written]; case_bool_decide as H.
  - subst j. destruct (cards !! i) eqn:E.
    + rewrite list_lookup_insert_eq; [done|]. by eapply lookup_lt_Some.
    + rewrite list_insert_ge; [by rewrite E|]. by apply lookup_ge_None.
  - by rewrite list_lookup_insert_ne.
  - subst j. destruct (cards !! i) eqn:E.
    + rewrite list_lookup_insert_eq; [done|]. by eapply lookup_lt_Some.
    + rewrite list_insert_ge; [by rewrite E|]. by apply lookup_ge_None.
  - by rewrite list_lookup_insert_ne.
Qed.

(** X19: on the cards the last event wins.  After any run of pointer-enter
    and pointer-leave events a card shows the transform of the last event
    delivered to it, lifted after an enter and neutral after a leave, and
    the transform it had if none was. *)
Theorem card_hover_last_event_wins (events : list Event) (cards : list CssValue)
    (i : nat) (c : CssValue) :
  cards !! i = Some c →
  run events cards !! i =
    Some (match last (filter (λ ev, card_of ev = i) events) with
          | Some ev => written ev
          | None => c
          end).
Proof.
  intros Hc. induction events as [|ev events IH] using rev_ind; [done|].
  unfold run in *. rewrite foldl_app. cbn [foldl].
  rewrite handle_lookup, IH, filter_app, filter_cons, filter_nil.
  case_bool_decide as H.
  - rewrite decide_True by done. by rewrite last_snoc.
  - rewrite decide_False by done. by rewrite app_nil_r.
Qed.

Lemma card_hover_last_event_wins_witness :
  run [MouseEnter 0; MouseEnter 1; MouseLeave 0; MouseEnter 1]
      [Text ""; Text ""; Text ""] !! 0%nat = Some neutral.
Proof.
  apply (card_hover_last_event_wins
           [MouseEnter 0; MouseEnter 1; MouseLeave 0; MouseEnter 1]
           [Text ""; Text ""; Text ""] 0 (Text "")).
  reflexivity.
Defined.

End CardHoverProperties.

(** ** Utility functions *)

Section DebounceProperties.
Import Utilities.

Context {A : Type}.

Lemma debounce_calls_burst (wait : nat) (immediate : bool)
    (calls : list (nat * A)) (d : Debounced A) (t : nat) (a : A) :
  timeout d = Some ((t + wait)%nat, a) →
  burst A wait t calls →
  debounce_calls A wait immediate calls d =
    {| timeout := Some (((default (t, a) (last calls)).1 + wait)%nat,
                        (default (t, a) (last calls)).2);
       invoked := invoked d |}.
Proof.
  revert d t a. induction calls as [|[t' a'] calls IH]; intros d t a Hd Hb.
  - destruct d as [to inv]. simpl in *. by subst to.
  - destruct Hb as (Hle & Hlt & Hb). cbn [fst] in *.
    change (debounce_calls A wait immediate ((t', a') :: calls) d) with
      (debounce_calls A wait immediate calls
         (executedFunction A wait immediate t' a' d)).
    set (d1 := executedFunction A wait immediate t' a' d).
    assert (Hd1 : d1 = {| timeout := Some ((t' + wait)%nat, a'); invoked := invoked d |}).
    { unfold d1, executedFunction, debounce_advance. rewrite Hd.
      rewrite (proj2 (Nat.leb_gt _ _)) by lia. rewrite Hd.
      rewrite bool_decide_eq_true_2 by by eexists.
      by rewrite andb_false_r. }
    rewrite (IH d1 t' a'); [|by rewrite Hd1|exact Hb].
    rewrite Hd1. cbn [invoked].
    assert (E : default (t', a') (last calls) =
                default (t, a) (last ((t', a') :: calls))).
    { destruct calls as [|c calls]; [done|]. rewrite last_cons_cons.
      destruct (last (c :: calls)) eqn:El; [done|]. by apply last_None in El. }
    by rewrite E.
Qed.

(** X20: a debounced function called in a burst runs once, afterwards.
    With [immediate] false, calls that follow one another by less than
    [wait] ms, made while no timer is pending, lead to exactly one call of
    the wrapped function: [wait] ms after the last call of the burst, with
    the arguments of that last call. *)
Theorem debounce_trailing (wait t1 : nat) (a1 : A) (calls : list (nat * A))
    (T : nat) (d : Debounced A) :
  timeout d = None →
  burst A wait t1 calls →
  let final := default (t1, a1) (last calls) in
  (final.1 + wait ≤ T)%nat →
  debounce_advance A false T (debounce_calls A wait false ((t1, a1) :: calls) d) =
    {| timeout := None;
       invoked := (invoked d ++ [((final.1 + wait)%nat, final.2)])%list |}.
Proof.
  intros Hd Hb final HT.
  change (debounce_calls A wait false ((t1, a1) :: calls) d) with
    (debounce_calls A wait false calls (executedFunction A wait false t1 a1 d)).
  set (d1 := executedFunction A wait false t1 a1 d).
  assert (Hd1 : d1 = {| timeout := Some ((t1 + wait)%nat, a1); invoked := invoked d |}).
  { unfold d1, executedFunction, debounce_advance. by rewrite Hd. }
  rewrite (debounce_calls_burst wait false calls d1 t1 a1); [|by rewrite Hd1|exact Hb].
  fold final. unfold debounce_advance. cbn [timeout].
  rewrite (proj2 (Nat.leb_le _ _)) by lia.
  unfold later. cbn [invoked]. by rewrite Hd1.
Qed.

(** X21: with [immediate] true the wrapped function runs once, at once.
    The first call of a burst made while no timer is pending calls the
    wrapped function with its own arguments; the other calls of the burst
    call nothing, and [wait] ms after the last of them the wrapper is ready
    to call at once again. *)
Theorem debounce_leading (wait t1 : nat) (a1 : A) (calls : list (nat * A))
    (T : nat) (d : Debounced A) :
  timeout d = None →
  burst A wait t1 calls →
  ((default (t1, a1) (last calls)).1 + wait ≤ T)%nat →
  debounce_advance A true T (debounce_calls A wait true ((t1, a1) :: calls) d) =
    {| timeout := None; invoked := (invoked d ++ [(t1, a1)])%list |}.
Proof.
  intros Hd Hb HT.
  change (debounce_calls A wait true ((t1, a1) :: calls) d) with
    (debounce_calls A wait true calls (executedFunction A wait true t1 a1 d)).
  set (d1 := executedFunction A wait true t1 a1 d).
  assert (Hd1 : d1 = {| timeout := Some ((t1 + wait)%nat, a1);
                        invoked := (invoked d ++ [(t1, a1)])%list |}).
  { unfold d1, executedFunction, debounce_advance. rewrite Hd. cbn. rewrite Hd.
    rewrite bool_decide_eq_false_2; [done|]. by intros [? ?]. }
  rewrite (debounce_calls_burst wait true calls d1 t1 a1); [|by rewrite Hd1|exact Hb].
  unfold debounce_advance. cbn [timeout].
  rewrite (proj2 (Nat.leb_le _ _)) by lia.
  unfold later. cbn [invoked]. by rewrite Hd1.
Qed.

End DebounceProperties.

Lemma debounce_trailing_witness :
  Utilities.debounce_advance string false 400
    (Utilities.debounce_calls string 250 false
       [(0, "a"); (100, "b"); (120, "c")]%nat
       {| Utilities.timeout := None; Utilities.invoked := [] |}) =
  {| Utilities.timeout := None; Utilities.invoked := [(370%nat, "c")] |}.
Proof.
  apply (debounce_trailing 250 0 "a" [(100, "b"); (120, "c")]%nat 400
           {| Utilities.timeout := None; Utilities.invoked := [] |}).
  - reflexivity.
  - cbn. lia.
  - cbn. lia.
Defined.

Lemma debounce_leading_witness :
  Utilities.debounce_advance string true 400
    (Utilities.debounce_calls string 250 true
       [(0, "a"); (100, "b"); (120, "c")]%nat
       {| Utilities.timeout := None; Utilities.invoked := [] |}) =
  {| Utilities.timeout := None; Utilities.invoked := [(0%nat, "a")] |}.
Proof.
  apply (debounce_leading 250 0 "a" [(100, "b"); (120, "c")]%nat 400
           {| Utilities.timeout := None; Utilities.invoked := [] |}).
  - reflexivity.
  - cbn. lia.
  - cbn. lia.
Defined.

Section ThrottleProperties.
Import Utilities.

Context {A : Type}.

Lemma spaced_snoc (limit : nat) (log : list (nat * A)) (c : nat * A) :
  spaced A limit log →
  (∀ c', last log = Some c' → (c'.1 + limit ≤ c.1)%nat) →
  spaced A limit (log ++ [c]).
Proof.
  induction log as [|c0 log IH]; intros Hs Hl; [done|].
  destruct Hs as [Hhd Hs]. destruct log as [|c1 log].
  - split; [|done]. apply Hl. reflexivity.
  - split; [exact Hhd|]. apply IH; [exact Hs|].
    intros c' Hc'. apply Hl. by rewrite last_cons_cons.
Qed.

Lemma throttled_ok (limit now t : nat) (a : A) (th : Throttled A) :
  (now ≤ t)%nat →
  throttle_state_ok A limit now th →
  throttle_state_ok A limit t (throttled A limit t a th).
Proof.
  intros Hle [Hsp Hst]. destruct th as [inT rs log]. cbn in *.
  unfold throttled, throttle_advance. cbn.
  destruct (last log) as [c|] eqn:Hlast.
  - destruct Hst as [Hc Hst]. destruct inT.
    + subst rs. rewrite filter_cons, filter_nil.
      destruct (decide (c.1 + limit ≤ t)%nat) as [Hd|Hd].
      * rewrite bool_decide_eq_true_2 by (apply Exists_cons; by left).
        rewrite decide_False by lia. cbn.
        split.
        -- apply spaced_snoc; [exact Hsp|].
           intros c' Hc'. rewrite Hlast in Hc'. injection Hc' as <-. exact Hd.
        -- unfold passed, inThrottle, resets. rewrite last_snoc. done.
      * rewrite bool_decide_eq_false_2
          by (intros [H|H]%Exists_cons; [lia | by apply Exists_nil in H]).
        rewrite decide_True by lia. cbn.
        split; [exact Hsp|]. unfold passed, inThrottle, resets. rewrite Hlast.
        split; [lia | done].
    + destruct Hst as [-> Hd].
      rewrite bool_decide_eq_false_2 by by intros H%Exists_nil.
      rewrite filter_nil. cbn.
      split.
      * apply spaced_snoc; [exact Hsp|].
        intros c' Hc'. rewrite Hlast in Hc'. simplify_eq. cbn in *. lia.
      * unfold passed, inThrottle, resets. rewrite last_snoc. done.
  - destruct Hst as [-> ->].
    rewrite bool_decide_eq_false_2 by by intros H%Exists_nil.
    rewrite filter_nil. cbn.
    split.
    + apply spaced_snoc; [exact Hsp|]. intros c' Hc'. by rewrite Hlast in Hc'.
    + unfold passed, inThrottle, resets. rewrite last_snoc. done.
Qed.

(** X22: a throttled function runs at most once per [limit] ms.  For calls
    in the order of the clock, starting with the throttle open, any two
    consecutive calls that reach the wrapped function are at least [limit]
    ms apart, and the first call always reaches it. *)
Theorem throttle_rate_limit (limit t0 : nat) (calls : list (nat * A)) :
  in_order A t0 calls →
  let th := throttle_calls A limit calls
              {| inThrottle := false; resets := []; passed := [] |} in
  spaced A limit (passed th) ∧ head (passed th) = head calls.
Proof.
  intros Hord th.
  assert (Hgen : ∀ calls now (th0 : Throttled A),
    in_order A now calls → throttle_state_ok A limit now th0 →
    spaced A limit (passed (throttle_calls A limit calls th0)) ∧
    (∀ c, head (passed th0) = Some c →
          head (passed (throttle_calls A limit calls th0)) = Some c)).
  { clear. induction calls as [|[t a] calls IH]; intros now th0 Hord Hok.
    - split; [apply Hok | done].
    - destruct Hord as [Hle Hord]. cbn [fst] in *.
      change (throttle_calls A limit ((t, a) :: calls) th0) with
        (throttle_calls A limit calls (throttled A limit t a th0)).
      pose proof (throttled_ok limit now t a th0 Hle Hok) as Hok'.
      destruct (IH t _ Hord Hok') as [IH1 IH2].
      split; [exact IH1|]. intros c Hc. apply IH2.
      unfold throttled. destruct (inThrottle (throttle_advance A t th0)); [exact Hc|].
      cbn [passed throttle_advance]. destruct (passed th0); [done | exact Hc]. }
  destruct calls as [|[t a] calls].
  - split; [done | done].
  - destruct Hord as [Hle Hord]. cbn [fst] in *.
    unfold th.
    change (throttle_calls A limit ((t, a) :: calls) ?x) with
      (throttle_calls A limit calls (throttled A limit t a x)).
    assert (Hok : throttle_state_ok A limit t
              (throttled A limit t a {| inThrottle := false; resets := []; passed := [] |})).
    { apply (throttled_ok limit t0 t); [exact Hle|]. by split. }
    destruct (Hgen calls t _ Hord Hok) as [H1 H2].
    split; [exact H1|]. apply H2. reflexivity.
Qed.

End ThrottleProperties.

Lemma throttle_rate_limit_witness :
  Utilities.passed
    (Utilities.throttle_calls string 16
       [(0, "a"); (5, "b"); (16, "c"); (20, "d"); (40, "e")]%nat
       {| Utilities.inThrottle := false; Utilities.resets := [];
          Utilities.passed := [] |})
  = [(0, "a"); (16, "c"); (40, "e")]%nat ∧
  Utilities.spaced string 16
    (Utilities.passed
       (Utilities.throttle_calls string 16
          [(0, "a"); (5, "b"); (16, "c"); (20, "d"); (40, "e")]%nat
          {| Utilities.inThrottle := false; Utilities.resets := [];
             Utilities.passed := [] |})).
Proof.
  split; [reflexivity|].
  apply (throttle_rate_limit 16 0
           [(0, "a"); (5, "b"); (16, "c"); (20, "d"); (40, "e")]%nat).
  cbn. lia.
Defined.

Section ViewportProperties.
Import Utilities.

(** X23: [isInViewport] grows with its threshold: an element of
    non-negative size that is in the viewport for one threshold is in it for
    every larger one. *)
Theorem isInViewport_monotone (rect : DOMRect) (v : Viewport) (t1 t2 : Qc) :
  (Qc_of_Z 0 ≤ width rect)%Qc → (Qc_of_Z 0 ≤ height rect)%Qc →
  (t1 ≤ t2)%Qc →
  isInViewport rect v t1 = true → isInViewport rect v t2 = true.
Proof.
  intros Hw Hh Ht. unfold isInViewport.
  generalize (number_or (innerHeight v) (clientHeight v)).
  generalize (number_or (innerWidth v) (clientWidth v)). intros W H.
  rewrite !andb_true_iff, !bool_decide_eq_true.
  destruct rect as [tp lf bt rt wd ht]. cbn [top left bottom right width height] in *.
  intros [[[H1 H2] H3] H4].
  destruct tp as [tp ?], lf as [lf ?], bt as [bt ?], rt as [rt ?], wd as [wd ?],
    ht as [ht ?], t1 as [t1 ?], t2 as [t2 ?], W as [W ?], H as [H ?].
  qc_to_q.
  assert (t1 * ht <= t2 * ht)%Q by nra.
  assert (t1 * wd <= t2 * wd)%Q by nra.
  repeat split; lra.
Qed.

Lemma isInViewport_monotone_witness :
  isInViewport banner desktop (Q2Qc (1 # 2)) = true.
Proof.
  apply (isInViewport_monotone banner desktop default_threshold (Q2Qc (1 # 2)));
    by vm_compute.
Defined.

(** X24: an element too tall for the window is never in the viewport.  For
    a rectangle whose bottom is its top plus its height, when the height
    exceeds the window height by more than twice the threshold share of the
    height, [isInViewport] is false wherever the element is; with the
    default threshold, that is every element taller than 1.25 windows. *)
Theorem isInViewport_too_tall (rect : DOMRect) (v : Viewport) (threshold : Qc) :
  bottom rect = (top rect + height rect)%Qc →
  (number_or (innerHeight v) (clientHeight v)
   + Qc_of_Z 2 * threshold * height rect < height rect)%Qc →
  isInViewport rect v threshold = false.
Proof.
  intros Hb Htall. unfold isInViewport.
  revert Htall. generalize (number_or (innerHeight v) (clientHeight v)).
  generalize (number_or (innerWidth v) (clientWidth v)). intros W H Htall.
  apply not_true_is_false.
  rewrite !andb_true_iff, !bool_decide_eq_true.
  destruct rect as [tp lf bt rt wd ht]. cbn [top left bottom right width height] in *.
  subst bt. intros [[[H1 H2] H3] H4].
  destruct tp as [tp ?], lf as [lf ?], rt as [rt ?], wd as [wd ?],
    ht as [ht ?], threshold as [th ?], W as [W ?], H as [H ?].
  qc_to_q. lra.
Qed.

Lemma isInViewport_too_tall_witness :
  isInViewport
    {| top := Qc_of_Z (-100); left := Qc_of_Z 0; bottom := Qc_of_Z 950;
       right := Qc_of_Z 300; width := Qc_of_Z 300; height := Qc_of_Z 1050 |}
    desktop default_threshold = false.
Proof.
  apply isInViewport_too_tall; [qc_eq | by vm_compute].
Defined.

End ViewportProperties.


(** ** Performance: deferred image loading *)

Section LazyImages.
Import PerformanceOptimizer.

Lemma lazy_fst_filter_ne (img : nat)
    (ts : list (nat * option ScrollAnimations.Observation)) :
  (filter (λ t, t.1 ≠ img) ts).*1 = filter (λ x, x ≠ img) ts.*1.
Proof. apply fst_filter_ne. Qed.

Lemma lazy_inv_entry (w0 w : World) (img : nat) :
  lazy_inv w0 w → img ∈ (targets w).*1 →
  lazy_inv w0 (unobserve img (set_images (alter loaded img (images w)) w)) ∧
  (targets (unobserve img (set_images (alter loaded img (images w)) w))).*1 =
    filter (λ x, x ≠ img) (targets w).*1.
Proof.
  intros (Hnd & Hsub & Himg) Hin.
  assert (Ht : (targets (unobserve img (set_images (alter loaded img (images w)) w))).*1
               = filter (λ x, x ≠ img) (targets w).*1).
  { unfold unobserve; cbn [targets set_targets set_images]. apply lazy_fst_filter_ne. }
  split; [|exact Ht]. split; [rewrite Ht; by apply NoDup_filter|]. split.
  - intros i. rewrite Ht, list_elem_of_filter. intros [_ Hi]. by apply Hsub.
  - intros i img0 Hi0. rewrite Ht.
    cbn [images unobserve set_targets set_images].
    specialize (Himg i img0 Hi0).
    destruct (decide (i = img)) as [->|Hne].
    + rewrite list_lookup_alter_eq, Himg. cbn [fmap option_fmap option_map].
      rewrite (bool_decide_eq_false_2 (img ∈ deferred w0 ∧ img ∉ (targets w).*1))
        by tauto.
      rewrite bool_decide_eq_true_2; [done|].
      split; [by apply Hsub|]. rewrite list_elem_of_filter. tauto.
    + rewrite list_lookup_alter_ne by done. rewrite Himg.
      rewrite (bool_decide_ext (i ∈ deferred w0 ∧ i ∉ (targets w).*1)
                 (i ∈ deferred w0 ∧ i ∉ filter (λ x, x ≠ img) (targets w).*1));
        [done|].
      rewrite list_elem_of_filter. tauto.
Qed.

Lemma imageObserver_callback_inv (w0 : World)
    (es : list ScrollAnimations.Entry) (w : World) :
  lazy_inv w0 w → NoDup (map ScrollAnimations.target es) →
  (∀ e, e ∈ es → ScrollAnimations.target e ∈ (targets w).*1) →
  lazy_inv w0 (imageObserver_callback es w).
Proof.
  revert w. induction es as [|e es IH]; intros w Hinv Hnd Hin; [done|].
  change (imageObserver_callback (e :: es) w)
    with (imageObserver_callback es
            (if ScrollAnimations.entry_isIntersecting e
             then unobserve (ScrollAnimations.target e)
                    (set_images
                       (alter loaded (ScrollAnimations.target e) (images w)) w)
             else w)).
  cbn [map] in Hnd. apply NoDup_cons in Hnd as [Hne Hnd].
  destruct (ScrollAnimations.entry_isIntersecting e).
  - destruct (lazy_inv_entry w0 w (ScrollAnimations.target e) Hinv)
      as [Hinv' Ht]; [apply Hin; by left|].
    apply IH; [done|done|]. intros e' He'.
    rewrite Ht, list_elem_of_filter. split; [|apply Hin; by right].
    intros Heq. apply Hne. rewrite <- Heq.
    by apply (list_elem_of_fmap_2 ScrollAnimations.target).
  - apply IH; [done|done|]. intros e' He'. apply Hin. by right.
Qed.

Lemma update_image_observations_inv (w0 : World)
    (obs : nat → ScrollAnimations.Observation) (w : World) :
  lazy_inv w0 w → lazy_inv w0 (update_image_observations obs w).
Proof.
  intros Hinv.
  destruct (queued_entries_targets obs (targets w)) as [Hq1 Hq2]; [apply Hinv|].
  apply imageObserver_callback_inv; [|done|].
  - destruct Hinv as (H1 & H2 & H3).
    unfold lazy_inv. cbn [targets images set_targets].
    by rewrite record_observations_fst.
  - intros e He. cbn [targets set_targets].
    rewrite record_observations_fst. by apply Hq2.
Qed.

Lemma observe_all (l : list nat) (w : World) :
  NoDup (targets w).*1 →
  NoDup (targets (foldl (λ w img, observe img w) w l)).*1 ∧
  images (foldl (λ w img, observe img w) w l) = images w ∧
  ∀ i, i ∈ (targets (foldl (λ w img, observe img w) w l)).*1 ↔
       i ∈ (targets w).*1 ∨ i ∈ l.
Proof.
  revert w. induction l as [|x l IH]; intros w Hnd.
  - cbn. split; [done|]. split; [done|]. intros i. rewrite elem_of_nil. tauto.
  - cbn [foldl].
    assert (Ho : NoDup (targets (observe x w)).*1 ∧
                 images (observe x w) = images w ∧
                 ∀ i, i ∈ (targets (observe x w)).*1 ↔ i ∈ (targets w).*1 ∨ i = x).
    { unfold observe. case_bool_decide as Hx.
      - split; [done|]. split; [done|]. intros i. split; [tauto|].
        intros [?| ->]; done.
      - cbn [targets images set_targets]. rewrite fmap_app. cbn [fmap list_fmap fst].
        split; [|split; [done|]].
        + apply NoDup_app. split; [done|]. split; [|apply NoDup_singleton].
          intros i Hi ->%list_elem_of_singleton. done.
        + intros i. by rewrite elem_of_app, list_elem_of_singleton. }
    destruct Ho as (Ho1 & Ho2 & Ho3).
    destruct (IH (observe x w) Ho1) as (I1 & I2 & I3).
    split; [exact I1|]. split; [by rewrite <- Ho2|].
    intros i. rewrite I3, Ho3, elem_of_cons. tauto.
Qed.

Lemma lazyLoadImages_deferred (w0 : World) (i : nat) (img0 : Image) :
  targets w0 = [] → images w0 !! i = Some img0 →
  NoDup (deferred w0) ∧ images (lazyLoadImages w0) = images w0 ∧
  (i ∈ deferred w0 ↔ supported w0 = true ∧ dataset_src img0 ≠ None).
Proof.
  intros Ht Hi. unfold deferred, lazyLoadImages.
  destruct (supported w0) eqn:Hs.
  - destruct (observe_all
                (filter (λ img, has_data_src w0 img = true)
                   (seq 0 (length (images w0)))) w0) as (H1 & H2 & H3).
    { rewrite Ht. constructor. }
    split; [done|]. split; [done|].
    rewrite H3, Ht, list_elem_of_filter, elem_of_seq. unfold has_data_src.
    rewrite Hi, bool_decide_eq_true. apply lookup_lt_Some in Hi.
    cbn. rewrite elem_of_nil. split; [tauto|]. intros [_ ?]. right.
    split; [done|lia].
  - rewrite Ht. cbn. split; [constructor|]. split; [done|].
    rewrite elem_of_nil. split; [done|]. by intros [? _].
Qed.

Lemma run_lazy_inv (w0 : World)
    (updates : list (nat → ScrollAnimations.Observation)) (w : World) :
  lazy_inv w0 w → lazy_inv w0 (run updates w).
Proof.
  revert w. induction updates as [|obs updates IH]; intros w Hinv; [done|].
  apply IH. by apply update_image_observations_inv.
Qed.

(** X25: [lazyLoadImages] loads each image once.  On a page whose image observer starts empty,
    an image is put under observation exactly when the window has an
    IntersectionObserver and the image carries a [data-src]; after any
    sequence of rendering updates the image is loaded from its [data-src],
    with the [lazy] class removed, exactly when it was deferred and has left
    observation, and is otherwise as the page had it. *)
Theorem lazy_image_loads_once (w0 : World)
    (updates : list (nat → ScrollAnimations.Observation))
    (i : nat) (img0 : Image) :
  targets w0 = [] → images w0 !! i = Some img0 →
  let w := run updates (lazyLoadImages w0) in
  (i ∈ deferred w0 ↔ supported w0 = true ∧ dataset_src img0 ≠ None) ∧
  images w !! i =
    Some (if bool_decide (i ∈ deferred w0 ∧ i ∉ (targets w).*1)
          then loaded img0 else img0).
Proof.
  intros Ht Hi w.
  destruct (lazyLoadImages_deferred w0 i img0 Ht Hi) as (Hnd & Himg & Hdef).
  split; [exact Hdef|].
  assert (Hinv : lazy_inv w0 (lazyLoadImages w0)).
  { split; [exact Hnd|]. split; [done|]. intros j img Hj.
    rewrite Himg, Hj. rewrite bool_decide_eq_false_2; [done|].
    unfold deferred. tauto. }
  destruct (run_lazy_inv w0 updates _ Hinv) as (_ & _ & H). by apply H.
Qed.

End LazyImages.

Lemma lazy_image_loads_once_witness :
  let w := PerformanceOptimizer.run
             [λ _, ScrollAnimations.hidden; λ _, ScrollAnimations.visible]
             (PerformanceOptimizer.lazyLoadImages
                (PerformanceOptimizer.gallery true)) in
  PerformanceOptimizer.images w !! 1%nat =
    Some (PerformanceOptimizer.loaded PerformanceOptimizer.photo) ∧
  PerformanceOptimizer.images w !! 0%nat = Some PerformanceOptimizer.logo.
Proof.
  intros w. split.
  - destruct (lazy_image_loads_once (PerformanceOptimizer.gallery true)
                [λ _, ScrollAnimations.hidden; λ _, ScrollAnimations.visible]
                1%nat PerformanceOptimizer.photo eq_refl eq_refl) as [_ H].
    exact H.
  - reflexivity.
Defined.
